(** * gitbase: the repository pool and the cross-repository row iterator

    A shallow embedding of [repository_pool.go]: the pool of repository
    backends ([RepositoryPool], [Add], [AddDir], [AddSivaDir], [GetPos],
    [GetRepo]), the cursor over the pool ([RepositoryIter]) and the
    composite row iterator ([rowRepoIter], its [Next] and [Close]).

    Go values are modelled as follows.
    - [map[string]repository] is a [gmap string repository], the slice
      [idOrder] a [list string];
    - a function returning [(T, error)] returns a [result T]; an index out
      of range or a call through a nil interface is the outcome [Panic];
    - the [int32] cursor position is a [Z] with its wrap-around written out;
    - go-git, the file system and logrus are collaborators: opening a
      repository and reading a directory are fields of the class [Host],
      log records are returned as a list;
    - the [for { select { ... } }] loop of [rowRepoIter.Next] is the function
      [loop_body] (one iteration) iterated by [Next] under a fuel bound. *)

From Stdlib Require Import ZArith Lia Ascii String.
From stdpp Require Import base option list strings gmap fin_maps.

Local Open Scope string_scope.
Local Open Scope list_scope.

(** ** Go's [strings] and [path/filepath] (Unix separator) *)

Module strings.

(** [strings.HasPrefix(s, prefix)] *)
Definition HasPrefix (s prefix : string) : bool := String.prefix prefix s.

(** [strings.HasSuffix(s, suffix)] *)
Definition HasSuffix (s suffix : string) : bool :=
  String.prefix (String.rev suffix) (String.rev s).

(** [strings.TrimPrefix(s, prefix)]: [s] without the leading [prefix]
    string, or [s] itself when it does not start with it. *)
Definition TrimPrefix (s prefix : string) : string :=
  if HasPrefix s prefix
  then String.substring (String.length prefix)
                        (String.length s - String.length prefix) s
  else s.

Fixpoint replace_go (old new : string) (skip : nat) (s : string) : string :=
  match s with
  | EmptyString => EmptyString
  | String c s' =>
      match skip with
      | S k => replace_go old new k s'
      | O =>
          if String.prefix old s
          then new +:+ replace_go old new (String.length old - 1) s'
          else String c (replace_go old new 0 s')
      end
  end.

Fixpoint intersperse_go (new s : string) : string :=
  match s with
  | EmptyString => new
  | String c s' => new +:+ String c (intersperse_go new s')
  end.

(** [strings.Replace(s, old, new, -1)]: every non-overlapping occurrence
    of [old], left to right.  For an empty [old] Go inserts [new] at every
    rune boundary; the model inserts at every byte, which is the same on
    ASCII text and whenever [new] is empty (the only use below). *)
Definition Replace (s old new : string) : string :=
  match old with
  | EmptyString => intersperse_go new s
  | _ => replace_go old new 0 s
  end.

End strings.

Module filepath.

Definition slash : ascii := "/"%char.

(** The elements of a path between separators; [cur] is the element being
    read, reversed. *)
Fixpoint split_go (cur : string) (s : string) : list string :=
  match s with
  | EmptyString => [String.rev cur]
  | String c s' =>
      if Ascii.eqb c slash then String.rev cur :: split_go EmptyString s'
      else split_go (String c cur) s'
  end.

Definition split (s : string) : list string := split_go EmptyString s.

Definition is_rooted (s : string) : bool :=
  match s with
  | String c _ => Ascii.eqb c slash
  | EmptyString => false
  end.

(** One element of [Clean]'s scan; [out] is the output so far, last
    element first.  [..] elements are only kept at the bottom of an
    unrooted output, so "the last kept element is [..]" is Go's test
    [out.w > dotdot] failing. *)
Definition clean_elem (rooted : bool) (out : list string) (e : string)
  : list string :=
  if String.eqb e "" then out
  else if String.eqb e "." then out
  else if String.eqb e ".." then
    match out with
    | top :: rest =>
        if String.eqb top ".." then e :: out else rest
    | [] => if rooted then out else [e]
    end
  else e :: out.

Fixpoint join_slash (l : list string) : string :=
  match l with
  | [] => ""
  | [e] => e
  | e :: l' => e +:+ "/" +:+ join_slash l'
  end.

(** [filepath.Clean(path)] *)
Definition Clean (path : string) : string :=
  if String.eqb path "" then "."
  else
    let rooted := is_rooted path in
    let out := rev (fold_left (clean_elem rooted) (split path) []) in
    if rooted then "/" +:+ join_slash out
    else match out with
         | [] => "."
         | _ => join_slash out
         end.

(** [filepath.Join(a, b)]: the elements from the first non-empty one on
    are joined by the separator and the result is cleaned. *)
Definition Join (a b : string) : string :=
  if negb (String.eqb a "") then Clean (a +:+ "/" +:+ b)
  else if negb (String.eqb b "") then Clean b
  else "".

Fixpoint drop_empty (l : list string) : list string :=
  match l with
  | e :: l' => if String.eqb e "" then drop_empty l' else l
  | [] => []
  end.

(** [filepath.Base(path)]: the last element, trailing separators removed. *)
Definition Base (path : string) : string :=
  if String.eqb path "" then "."
  else match drop_empty (rev (split path)) with
       | [] => "/"
       | e :: _ => e
       end.

End filepath.

(** ** Errors, results and log records *)

(** The error values of the package, [io.EOF], and the errors raised by the
    collaborators (go-git, the operating system, the sub-iterators). *)
Inductive error : Type :=
| EOF
| ErrInvalidGitbaseSession
| ErrSessionCanceled
| errRepoAlreadyRegistered (path : string)
| errRepoCannotOpen (cause : error) (path : string)
| ErrPoolRepoNotFound (id : string)
| ErrHost (msg : string).

(** [err == io.EOF] *)
Definition is_EOF (err : error) : bool :=
  match err with
  | EOF => true
  | _ => false
  end.

(** The outcome of a Go call returning [(T, error)]; [Panic] is a run-time
    panic (index out of range, nil dereference). *)
Inductive result (A : Type) : Type :=
| Ok (a : A)
| Err (e : error)
| Panic.
Arguments Ok {A} a.
Arguments Err {A} e.
Arguments Panic {A}.

Inductive level : Type := DebugLevel | WarnLevel | ErrorLevel.

Inductive field : Type :=
| FString (s : string)
| FError (e : error).

(** One logrus record: level, fields, message. *)
Record entry : Type := Entry {
  entry_level : level;
  entry_fields : list (string * field);
  entry_msg : string
}.

(** ** Collaborators *)

(** [os.FileInfo], as far as the pool reads it. *)
Record FileInfo : Type := { Name : string; IsDir : bool }.

(** What the pool consumes from outside this file.
    - [PlainOpen] is [git.PlainOpen];
    - [SivaOpen path] stands for the calls of [NewSivaRepositoryFromPath] on
      the archive at [path] ([ioutil.TempDir], [sivafs.NewFilesystem],
      [filesystem.NewStorage], [git.Open]), the first error being returned;
    - [ReadDir] is [ioutil.ReadDir];
    - [IDFromPath] is a function of this package defined in another file. *)
Class Host : Type := {
  GitRepository : Type;
  PlainOpen : string → error + GitRepository;
  SivaOpen : string → error + GitRepository;
  ReadDir : string → error + list FileInfo;
  IDFromPath : Z → string → string
}.

(** ** Backends and the pool *)

(** The two implementations of the interface [repository]. *)
Inductive repository : Type :=
| gitRepo (id path : string)
| sivaRepo (id path : string).

Definition r_ID (r : repository) : string :=
  match r with
  | gitRepo id _ => id
  | sivaRepo id _ => id
  end.

Definition r_Path (r : repository) : string :=
  match r with
  | gitRepo _ path => path
  | sivaRepo _ path => path
  end.

Record RepositoryPool : Type := {
  repositories : gmap string repository;
  idOrder : list string
}.

Definition NewRepositoryPool : RepositoryPool :=
  {| repositories := ∅; idOrder := [] |}.

(** [RepositoryPool.Add]: the pool after the call and the returned error. *)
Definition Add (repo : repository) (p : RepositoryPool)
  : RepositoryPool * option error :=
  let id := r_ID repo in
  match repositories p !! id with
  | Some r => (p, Some (errRepoAlreadyRegistered (r_Path r)))
  | None =>
      ({| repositories := <[id := repo]> (repositories p);
          idOrder := idOrder p ++ [id] |}, None)
  end.

(** [RepositoryPool.AddSivaFile]: it returns nothing; the pool after the
    call and the records it logs. *)
Definition AddSivaFile (id path : string) (p : RepositoryPool)
  : RepositoryPool * list entry :=
  let file := filepath.Base path in
  let warn :=
    if negb (strings.HasSuffix file ".siva")
    then [Entry WarnLevel [("file", FString file)] "found a non-siva file"]
    else [] in
  let '(p', _) := Add (sivaRepo id path) p in
  (p', warn ++ [Entry DebugLevel [("file", FString file)] "repository added"]).

(** The local variable [relativeFileName] of [addSivaFile]. *)
Definition relativeFileName (root path : string) (f : FileInfo) : string :=
  if String.eqb root path then Name f
  else
    let relPath :=
      strings.TrimPrefix (strings.Replace path root "") "/\" in
    filepath.Join relPath (Name f).

(** [RepositoryPool.addSivaFile] *)
Definition addSivaFile (root path : string) (f : FileInfo) (p : RepositoryPool)
  : RepositoryPool * list entry :=
  let relativeFileName := relativeFileName root path f in
  if strings.HasSuffix (Name f) ".siva" then
    let path := filepath.Join path (Name f) in
    let '(p', _) := Add (sivaRepo path path) p in
    (p', [Entry DebugLevel [("file", FString relativeFileName)]
                "repository added"])
  else
    (p, [Entry WarnLevel [("file", FString relativeFileName)]
               "found a non-siva file, skipping"]).

Section WithHost.
Context `{Host}.

(** The struct [Repository]: an opened repository and its id. *)
Record Repository : Type := NewRepository {
  ID : string;
  Repo : GitRepository
}.

Definition NewRepositoryFromPath (id path : string) : result Repository :=
  match PlainOpen path with
  | inl err => Err err
  | inr repo => Ok (NewRepository id repo)
  end.

Definition NewSivaRepositoryFromPath (id path : string) : result Repository :=
  match SivaOpen path with
  | inl err => Err err
  | inr repo => Ok (NewRepository id repo)
  end.

(** The method [Repo()] of the interface [repository]. *)
Definition r_Repo (r : repository) : result Repository :=
  match r with
  | gitRepo id path => NewRepositoryFromPath id path
  | sivaRepo id path => NewSivaRepositoryFromPath id path
  end.

(** [RepositoryPool.AddGitWithID] *)
Definition AddGitWithID (id path : string) (p : RepositoryPool)
  : RepositoryPool * (error + string) :=
  match PlainOpen path with
  | inl err => (p, inl (errRepoCannotOpen err path))
  | inr _ =>
      match Add (gitRepo id path) p with
      | (p', Some err) => (p', inl err)
      | (p', None) => (p', inr path)
      end
  end.

(** [RepositoryPool.AddGit] *)
Definition AddGit (path : string) (p : RepositoryPool)
  : RepositoryPool * (error + string) :=
  AddGitWithID path path p.

(** The body of the [for] loop of [AddDir] on one directory entry. *)
Definition AddDir_entry (prefix : Z) (path : string)
    (st : RepositoryPool * list entry) (f : FileInfo)
  : RepositoryPool * list entry :=
  let '(p, lg) := st in
  if IsDir f then
    let pa := filepath.Join path (Name f) in
    let id := IDFromPath prefix pa in
    match AddGitWithID id pa p with
    | (p', inl err) =>
        (p', lg ++ [Entry ErrorLevel
                      [("id", FString id); ("path", FString pa);
                       ("error", FError err)]
                      "repository could not be added"])
    | (p', inr _) =>
        (p', lg ++ [Entry DebugLevel [("path", FString pa)]
                      "repository added"])
    end
  else (p, lg).

(** [RepositoryPool.AddDir] *)
Definition AddDir (prefix : Z) (path : string) (p : RepositoryPool)
  : RepositoryPool * list entry * option error :=
  match ReadDir path with
  | inl err => (p, [], Some err)
  | inr dirs =>
      let '(p', lg) := fold_left (AddDir_entry prefix path) dirs (p, []) in
      (p', lg, None)
  end.

(** The [for] loop of [addSivaDir] over the entries still to visit; [sub]
    is the recursive call [p.addSivaDir(root, dirPath, false)]. *)
Fixpoint addSivaDir_loop
    (sub : string → RepositoryPool → RepositoryPool * list entry * option error)
    (root path : string) (recursive : bool) (dirs : list FileInfo)
    (p : RepositoryPool) (lg : list entry)
  : RepositoryPool * list entry * option error :=
  match dirs with
  | [] => (p, lg, None)
  | f :: rest =>
      if IsDir f && recursive then
        let dirPath := filepath.Join path (Name f) in
        match sub dirPath p with
        | (p', lg', Some err) => (p', lg ++ lg', Some err)
        | (p', lg', None) =>
            addSivaDir_loop sub root path recursive rest p' (lg ++ lg')
        end
      else
        let '(p', lg') := addSivaFile root path f p in
        addSivaDir_loop sub root path recursive rest p' (lg ++ lg')
  end.

Definition addSivaDir_with
    (sub : string → RepositoryPool → RepositoryPool * list entry * option error)
    (root path : string) (recursive : bool) (p : RepositoryPool)
  : RepositoryPool * list entry * option error :=
  match ReadDir path with
  | inl err => (p, [], Some err)
  | inr dirs => addSivaDir_loop sub root path recursive dirs p []
  end.

(** The call [p.addSivaDir(root, dirPath, false)] made from the loop of
    [addSivaDir]: with [recursive = false] the function does not call
    itself. *)
Definition addSivaDir_sub (root dirPath : string) (p : RepositoryPool)
  : RepositoryPool * list entry * option error :=
  addSivaDir_with (λ _ p', (p', [], None)) root dirPath false p.

(** [RepositoryPool.addSivaDir].  The Go function calls itself only with
    [recursive = false]: the recursion is unfolded to its two levels. *)
Definition addSivaDir (root path : string) (recursive : bool)
    (p : RepositoryPool)
  : RepositoryPool * list entry * option error :=
  addSivaDir_with (addSivaDir_sub root) root path recursive p.

(** [RepositoryPool.AddSivaDir] *)
Definition AddSivaDir (path : string) (p : RepositoryPool)
  : RepositoryPool * list entry * option error :=
  addSivaDir path path true p.

(** [RepositoryPool.GetRepo] *)
Definition GetRepo (id : string) (p : RepositoryPool) : result Repository :=
  match repositories p !! id with
  | None => Err (ErrPoolRepoNotFound id)
  | Some r => r_Repo r
  end.

(** [RepositoryPool.GetPos]; [p.idOrder[pos]] panics when [pos] is
    negative or not below the length of the slice. *)
Definition GetPos (pos : Z) (p : RepositoryPool) : result Repository :=
  if (Z.of_nat (size (repositories p)) <=? pos)%Z then Err EOF
  else if (pos <? 0)%Z then Panic
  else
    match idOrder p !! Z.to_nat pos with
    | None => Panic
    | Some id =>
        if String.eqb id "" then Err EOF
        else GetRepo id p
    end.

End WithHost.

(** ** The cursor over the pool *)

(** Addition on [int32] as [atomic.AddInt32] computes it. *)
Definition wrap32 (z : Z) : Z := ((z + 2 ^ 31) mod 2 ^ 32 - 2 ^ 31)%Z.

Record RepositoryIter : Type := {
  pos : Z;
  pool : RepositoryPool
}.

(** [RepositoryPool.RepoIter] *)
Definition RepoIter (p : RepositoryPool) : RepositoryIter :=
  {| pos := 0; pool := p |}.

(** [RepositoryIter.Next]: the position is advanced whatever [GetPos]
    returns; a panic in [GetPos] leaves it as it was. *)
Definition RepositoryIter_Next `{Host} (i : RepositoryIter)
  : RepositoryIter * result Repository :=
  match GetPos (pos i) (pool i) with
  | Panic => (i, Panic)
  | r => ({| pos := wrap32 (pos i + 1); pool := pool i |}, r)
  end.

(** [RepositoryIter.Close] *)
Definition RepositoryIter_Close (i : RepositoryIter) : option error := None.

(** ** The composite row iterator *)

(** The interface [RowRepoIter], implemented by the values of type [I];
    [Row] is [sql.Row].  [NewIterator] returns Go's pair of an iterator
    (possibly nil) and an error; [sub_Next] returns the iterator after the
    call and what the call returned; [sub_Close] what [Close] returns. *)
Class RowRepoIter `{Host} (Row I : Type) : Type := {
  NewIterator : I → Repository → option I * option error;
  sub_Next : I → I * (error + Row);
  sub_Close : I → option error
}.

(** [Session], as far as the iterator reads it. *)
Record Session : Type := {
  Pool : RepositoryPool;
  SkipGitErrors : bool
}.

(** [sql.Context]: [ctx_Session] is [None] when [ctx.Session] is not a
    non-nil [*Session]; [Done n] tells whether the channel [ctx.Done()] is
    closed at the [n]-th time it is polled. *)
Record Context : Type := {
  ctx_Session : option Session;
  Done : nat → bool
}.

(** What one iteration of the loop of [Next] tells its caller. *)
Inductive control (Row : Type) : Type :=
| Continue
| Return (row : Row)
| ReturnErr (err : error)
| Panicked.
Arguments Continue {Row}.
Arguments Return {Row} row.
Arguments ReturnErr {Row} err.
Arguments Panicked {Row}.

Section Driver.
Context `{Host} {Row I : Type} `{!RowRepoIter Row I}.

(** The calls the iterator makes on its collaborators. *)
Inductive event : Type :=
| EvRepositoryNext (pos : Z)
| EvNewIterator (id : string)
| EvNext (it : I)
| EvClose (it : I).

(** The struct [rowRepoIter].  The mutex is left out: calls are
    sequential here.  [polls] counts the polls of [ctx.Done()] and [trace]
    records the calls made on the collaborators, oldest first; the code
    reads neither. *)
Record rowRepoIter : Type := {
  currRepoIter : option I;
  repositoryIter : RepositoryIter;
  iter : I;
  session : Session;
  ctx : Context;
  polls : nat;
  trace : list event
}.

Definition set_currRepoIter (c : option I) (i : rowRepoIter) : rowRepoIter :=
  {| currRepoIter := c; repositoryIter := repositoryIter i; iter := iter i;
     session := session i; ctx := ctx i; polls := polls i;
     trace := trace i |}.

Definition set_repositoryIter (r : RepositoryIter) (i : rowRepoIter)
  : rowRepoIter :=
  {| currRepoIter := currRepoIter i; repositoryIter := r; iter := iter i;
     session := session i; ctx := ctx i; polls := polls i;
     trace := trace i |}.

Definition poll (i : rowRepoIter) : rowRepoIter :=
  {| currRepoIter := currRepoIter i; repositoryIter := repositoryIter i;
     iter := iter i; session := session i; ctx := ctx i;
     polls := S (polls i); trace := trace i |}.

Definition record (e : event) (i : rowRepoIter) : rowRepoIter :=
  {| currRepoIter := currRepoIter i; repositoryIter := repositoryIter i;
     iter := iter i; session := session i; ctx := ctx i;
     polls := polls i; trace := trace i ++ [e] |}.

(** [NewRowRepoIter] *)
Definition NewRowRepoIter (ctx : Context) (iter : I) : result rowRepoIter :=
  match ctx_Session ctx with
  | None => Err ErrInvalidGitbaseSession
  | Some s =>
      Ok {| currRepoIter := None; repositoryIter := RepoIter (Pool s);
            iter := iter; session := s; ctx := ctx;
            polls := 0; trace := [] |}
  end.

(** Lines 433-448: [row, err := i.currRepoIter.Next()] and what follows. *)
Definition next_row (i : rowRepoIter) : rowRepoIter * control Row :=
  match currRepoIter i with
  | None => (i, Panicked)
  | Some it =>
      let '(it', r) := sub_Next it in
      let i := set_currRepoIter (Some it') (record (EvNext it) i) in
      match r with
      | inl err =>
          if is_EOF err then
            (set_currRepoIter None (record (EvClose it') i), Continue)
          else if SkipGitErrors (session i) then (i, Continue)
          else (i, ReturnErr err)
      | inr row => (i, Return row)
      end
  end.

(** One iteration of the [for] loop of [rowRepoIter.Next]. *)
Definition loop_body (i : rowRepoIter) : rowRepoIter * control Row :=
  if Done (ctx i) (polls i) then (poll i, ReturnErr ErrSessionCanceled)
  else
    let i := poll i in
    match currRepoIter i with
    | None =>
        let '(ri, r) := RepositoryIter_Next (repositoryIter i) in
        let i :=
          set_repositoryIter ri
            (record (EvRepositoryNext (pos (repositoryIter i))) i) in
        match r with
        | Panic => (i, Panicked)
        | Err err =>
            if is_EOF err then (i, ReturnErr EOF)
            else if SkipGitErrors (session i) then (i, Continue)
            else (i, ReturnErr err)
        | Ok repo =>
            let '(it, err) := NewIterator (iter i) repo in
            let i :=
              set_currRepoIter it (record (EvNewIterator (ID repo)) i) in
            match err with
            | Some err =>
                if SkipGitErrors (session i) then (i, Continue)
                else (i, ReturnErr err)
            | None => next_row i
            end
        end
    | Some _ => next_row i
    end.

(** The idle iterator after it has asked its cursor for a repository. *)
Definition pulled_one (i : rowRepoIter) : rowRepoIter :=
  set_repositoryIter
    {| pos := wrap32 (pos (repositoryIter i) + 1);
       pool := pool (repositoryIter i) |}
    (record (EvRepositoryNext (pos (repositoryIter i))) (poll i)).

(** [rowRepoIter.Next]: the loop, run for at most [fuel] iterations;
    [None] when it has not returned by then. *)
Fixpoint Next (fuel : nat) (i : rowRepoIter)
  : option (rowRepoIter * result Row) :=
  match fuel with
  | O => None
  | S fuel' =>
      match loop_body i with
      | (i', Continue) => Next fuel' i'
      | (i', Return row) => Some (i', Ok row)
      | (i', ReturnErr err) => Some (i', Err err)
      | (i', Panicked) => Some (i', Panic)
      end
  end.

(** [rowRepoIter.Close] *)
Definition Close (i : rowRepoIter) : rowRepoIter * option error :=
  let i :=
    match currRepoIter i with
    | Some it => record (EvClose it) i
    | None => i
    end in
  (record (EvClose (iter i)) i, sub_Close (iter i)).

(** Repeated calls of [Next], as the query engine makes them: up to
    [calls] calls, stopping at the first one that does not return a row.
    The rows returned, the outcome that ended the sequence if any, and
    the iterator afterwards. *)
Fixpoint consume (calls fuel : nat) (i : rowRepoIter)
  : list Row * option (result Row) * rowRepoIter :=
  match calls with
  | O => ([], None, i)
  | S calls' =>
      match Next fuel i with
      | None => ([], None, i)
      | Some (i', Ok row) =>
          let '(rows, r, i'') := consume calls' fuel i' in
          (row :: rows, r, i'')
      | Some (i', r) => ([], Some r, i')
      end
  end.

(** [yields i rows i']: [length rows] successive calls of [Next] from [i]
    return the rows [rows] and leave the iterator [i']. *)
Inductive yields : rowRepoIter → list Row → rowRepoIter → Prop :=
| yields_nil i : yields i [] i
| yields_cons i fuel i1 row rows i' :
    Next fuel i = Some (i1, Ok row) →
    yields i1 rows i' →
    yields i (row :: rows) i'.

(** A sub-iterator that returns the rows [rows], then [io.EOF]. *)
Inductive produces : I → list Row → Prop :=
| produces_nil it it' :
    sub_Next it = (it', inl EOF) → produces it []
| produces_cons it it' row rows :
    sub_Next it = (it', inr row) →
    produces it' rows →
    produces it (row :: rows).

(** [run i rows i']: some iterations of the loop, started in [i], hand
    the rows [rows] to [Next]'s callers and leave the iterator [i'];
    an iteration that returns a row ends a call of [Next] and the following
    call starts the next iteration. *)
Inductive run : rowRepoIter → list Row → rowRepoIter → Prop :=
| run_refl i : run i [] i
| run_continue i i1 rows i' :
    loop_body i = (i1, Continue) →
    run i1 rows i' →
    run i rows i'
| run_return i i1 row rows i' :
    loop_body i = (i1, Return row) →
    run i1 rows i' →
    run i (row :: rows) i'.

(** How a registered backend behaves under the factory [f]: it opens and
    its sub-iterator returns [rows] and then [io.EOF]; or it fails to open
    (an error that is not the sentinel [io.EOF]); or it opens and
    [NewIterator] fails, returning no iterator. *)
Inductive behaviour : Type :=
| Rows (rows : list Row)
| OpenFails
| NewIteratorFails.

Definition behaves (f : I) (r : repository) (b : behaviour) : Prop :=
  match b with
  | Rows rows =>
      ∃ repo it,
        r_Repo r = Ok repo
        ∧ NewIterator f repo = (Some it, None)
        ∧ produces it rows
  | OpenFails => ∃ err, r_Repo r = Err err ∧ is_EOF err = false
  | NewIteratorFails =>
      ∃ repo err, r_Repo r = Ok repo ∧ NewIterator f repo = (None, Some err)
  end.

Definition rows_of (b : behaviour) : list Row :=
  match b with
  | Rows rows => rows
  | _ => []
  end.

Definition is_Rows (b : behaviour) : Prop :=
  match b with
  | Rows _ => True
  | _ => False
  end.

(** The positions the iterator has asked its cursor for, oldest first. *)
Fixpoint pulled (tr : list event) : list Z :=
  match tr with
  | [] => []
  | EvRepositoryNext k :: tr' => k :: pulled tr'
  | _ :: tr' => pulled tr'
  end.

End Driver.

(** ** Registration sequences *)

(** The pool after registering the backends [rs] in order with [Add], when
    every one of the calls succeeds. *)
Fixpoint AddAll (rs : list repository) (p : RepositoryPool)
  : option RepositoryPool :=
  match rs with
  | [] => Some p
  | r :: rs' =>
      match Add r p with
      | (p', None) => AddAll rs' p'
      | (_, Some _) => None
      end
  end.

(** ** Fixtures: a host, and sub-iterators that replay a script *)

Module Fixture.

Fixpoint assoc {A : Type} (k : string) (l : list (string * A)) : option A :=
  match l with
  | [] => None
  | (k', a) :: l' => if String.eqb k k' then Some a else assoc k l'
  end.

(** A host in which the paths [unopenable] hold no repository, the
    directories are those listed in [tree], and ids are base names (a
    stand-in for [IDFromPath]). *)
Definition host (unopenable : list string)
    (tree : list (string * list FileInfo)) : Host :=
  {| GitRepository := string;
     PlainOpen path :=
       if existsb (String.eqb path) unopenable
       then inl (ErrHost "repository does not exist")
       else inr path;
     SivaOpen path :=
       if existsb (String.eqb path) unopenable
       then inl (ErrHost "repository does not exist")
       else inr path;
     ReadDir path :=
       match assoc path tree with
       | Some l => inr l
       | None => inl (ErrHost "no such directory")
       end;
     IDFromPath _ path := filepath.Base path |}.

(** A factory holds, per repository id, either the error of [NewIterator]
    or the results the sub-iterator returns before [io.EOF]; a cursor holds
    the results still to return. *)
Inductive scripted : Type :=
| Factory (table : list (string * (error + list (error + nat))))
| Cursor (rest : list (error + nat)).

Definition scripted_NewIterator `{Host} (it : scripted) (repo : Repository)
  : option scripted * option error :=
  match it with
  | Factory table =>
      match assoc (ID repo) table with
      | Some (inr script) => (Some (Cursor script), None)
      | Some (inl err) => (None, Some err)
      | None => (Some (Cursor []), None)
      end
  | Cursor _ => (None, Some (ErrHost "not a factory"))
  end.

Definition scripted_Next (it : scripted) : scripted * (error + nat) :=
  match it with
  | Cursor (r :: rest) => (Cursor rest, r)
  | _ => (it, inl EOF)
  end.

#[global] Instance scripted_iter `{Host} : RowRepoIter nat scripted :=
  {| NewIterator := scripted_NewIterator;
     sub_Next := scripted_Next;
     sub_Close _ := None |}.

Definition file (name : string) : FileInfo :=
  {| Name := name; IsDir := false |}.
Definition dir (name : string) : FileInfo :=
  {| Name := name; IsDir := true |}.

(** A context that is never canceled, for a session on [p]. *)
Definition background (p : RepositoryPool) (skip : bool) : Context :=
  {| ctx_Session := Some {| Pool := p; SkipGitErrors := skip |};
     Done _ := false |}.

(** The iterator [NewRowRepoIter] builds for [p], or an empty one. *)
Definition driver `{Host} (p : RepositoryPool) (skip : bool)
    (table : list (string * (error + list (error + nat))))
  : rowRepoIter (I := scripted) :=
  match NewRowRepoIter (background p skip) (Factory table) with
  | Ok i => i
  | _ =>
      {| currRepoIter := None; repositoryIter := RepoIter p;
         iter := Factory table;
         session := {| Pool := p; SkipGitErrors := skip |};
         ctx := background p skip; polls := 0; trace := [] |}
  end.

Definition pool_of (rs : list repository) : RepositoryPool :=
  default NewRepositoryPool (AddAll rs NewRepositoryPool).

(** An iterator in the middle of the repository "a": its sub-iterator still
    has [script] to return; [done] is the cancellation signal. *)
Definition active (skip : bool) (done : nat → bool)
    (script : list (error + nat)) : rowRepoIter (I := scripted) :=
  let p := pool_of [gitRepo "a" "/srv/a"; gitRepo "b" "/srv/b"] in
  let s := {| Pool := p; SkipGitErrors := skip |} in
  {| currRepoIter := Some (Cursor script);
     repositoryIter := {| pos := 1; pool := p |};
     iter := Factory [];
     session := s;
     ctx := {| ctx_Session := Some s; Done := done |};
     polls := 3; trace := [] |}.

End Fixture.

(** ** What a scan finds and adds *)

(** [extends_with_archives p p']: [p'] keeps every backend of [p], and
    every id it adds is bound to the archive backend whose id and path are
    both that id. *)
Definition extends_with_archives (p p' : RepositoryPool) : Prop :=
  ∀ id,
    match repositories p !! id with
    | Some r => repositories p' !! id = Some r
    | None =>
        repositories p' !! id = None
        ∨ repositories p' !! id = Some (sivaRepo id id)
    end.

(** The entries [AddSivaDir root] hands to [addSivaFile], with the directory
    they are listed in: the entries of [root] that are not directories, and
    all entries of the directories listed in [root]. *)
Inductive discovered `{Host} (root : string) : string → FileInfo → Prop :=
| discovered_top dirs f :
    ReadDir root = inr dirs →
    f ∈ dirs →
    IsDir f = false →
    discovered root root f
| discovered_sub dirs d sub f :
    ReadDir root = inr dirs →
    d ∈ dirs →
    IsDir d = true →
    ReadDir (filepath.Join root (Name d)) = inr sub →
    f ∈ sub →
    discovered root (filepath.Join root (Name d)) f.


(** ** Pools reached by registration *)

(** The pool after the calls [p.Add(r)] for the backends [rs] in order,
    whatever each call returns. *)
Definition AddMany (rs : list repository) (p : RepositoryPool)
  : RepositoryPool :=
  fold_left (λ p r, (Add r p).1) rs p.

(** The two fields of a pool agree: [idOrder] lists each registered id
    once, the mapping is defined on exactly those ids, and every backend is
    filed under its own id. *)
Definition pool_wf (p : RepositoryPool) : Prop :=
  NoDup (idOrder p)
  ∧ length (idOrder p) = size (repositories p)
  ∧ (∀ id, id ∈ idOrder p ↔ is_Some (repositories p !! id))
  ∧ (∀ id r, repositories p !! id = Some r → r_ID r = id).

(** One call of a registration method of the pool. *)
Inductive registers `{Host} : RepositoryPool → RepositoryPool → Prop :=
| registers_Add r p : registers p (Add r p).1
| registers_AddGit path p : registers p (AddGit path p).1
| registers_AddGitWithID id path p : registers p (AddGitWithID id path p).1
| registers_AddDir prefix path p : registers p (AddDir prefix path p).1.1
| registers_AddSivaDir path p : registers p (AddSivaDir path p).1.1
| registers_AddSivaFile id path p : registers p (AddSivaFile id path p).1.

(** The pools a program can hold: [NewRepositoryPool()] followed by calls
    of the registration methods (the fields are not exported). *)
Inductive reachable `{Host} : RepositoryPool → Prop :=
| reachable_new : reachable NewRepositoryPool
| reachable_step p p' : reachable p → registers p p' → reachable p'.

(** The backends [AddDir prefix path] hands to [Add], in order: one for
    each listed directory in which a repository opens. *)
Fixpoint AddDir_backends `{Host} (prefix : Z) (path : string)
    (dirs : list FileInfo) : list repository :=
  match dirs with
  | [] => []
  | f :: dirs' =>
      let pa := filepath.Join path (Name f) in
      (if IsDir f then
         match PlainOpen pa with
         | inr _ => [gitRepo (IDFromPath prefix pa) pa]
         | inl _ => []
         end
       else [])
      ++ AddDir_backends prefix path dirs'
  end.

(** The backends [addSivaFile] hands to [Add] for the entries listed in
    [path]: one for each entry whose name has the suffix. *)
Fixpoint archives_in (path : string) (entries : list FileInfo)
  : list repository :=
  match entries with
  | [] => []
  | f :: entries' =>
      let pa := filepath.Join path (Name f) in
      (if strings.HasSuffix (Name f) ".siva" then [sivaRepo pa pa] else [])
      ++ archives_in path entries'
  end.

(** The backends [AddSivaDir root] hands to [Add], in order, [dirs] being
    the listing of [root]: the scan stops at the first directory that cannot
    be read. *)
Fixpoint AddSivaDir_backends `{Host} (root : string) (dirs : list FileInfo)
  : list repository :=
  match dirs with
  | [] => []
  | e :: dirs' =>
      if IsDir e then
        match ReadDir (filepath.Join root (Name e)) with
        | inr sub =>
            archives_in (filepath.Join root (Name e)) sub
            ++ AddSivaDir_backends root dirs'
        | inl _ => []
        end
      else archives_in root [e] ++ AddSivaDir_backends root dirs'
  end.

(** [n] successive calls of [RepositoryIter.Next]: what they return, and
    the cursor afterwards. *)
Fixpoint RepositoryIter_take `{Host} (n : nat) (i : RepositoryIter)
  : list (result Repository) * RepositoryIter :=
  match n with
  | O => ([], i)
  | S n' =>
      let '(i', r) := RepositoryIter_Next i in
      let '(rs, i'') := RepositoryIter_take n' i' in
      (r :: rs, i'')
  end.

(** The records [AddDir] logs at debug level: one per repository added. *)
Definition is_debug (e : entry) : bool :=
  match entry_level e with
  | DebugLevel => true
  | _ => false
  end.

(** ** Sequences of calls *)

(** [n] successive calls of [rowRepoIter.Next], whatever they return: the
    results, and the iterator afterwards (the sequence ends early at a call
    that has not returned within [fuel] iterations). *)
Fixpoint Next_calls `{Host} {Row I : Type} `{!RowRepoIter Row I}
    (n fuel : nat) (i : rowRepoIter (I := I))
  : list (result Row) * rowRepoIter (I := I) :=
  match n with
  | O => ([], i)
  | S n' =>
      match Next fuel i with
      | None => ([], i)
      | Some (i', r) =>
          let '(rs, i'') := Next_calls n' fuel i' in
          (r :: rs, i'')
      end
  end.

(** The [Close] events of a trace. *)
Fixpoint closed {I : Type} (tr : list (event (I := I))) : list I :=
  match tr with
  | [] => []
  | EvClose it :: tr' => it :: closed tr'
  | _ :: tr' => closed tr'
  end.

(** An idle iterator over the pool ["a"] whose cursor is at [pos], for the
    fixtures. *)
Definition idle_at `{Host} (pos : Z) (skip : bool)
    (table : list (string * (error + list (error + nat))))
  : rowRepoIter (I := Fixture.scripted) :=
  let p := Fixture.pool_of [gitRepo "a" "/srv/a"] in
  {| currRepoIter := None;
     repositoryIter := {| pos := pos; pool := p |};
     iter := Fixture.Factory table;
     session := {| Pool := p; SkipGitErrors := skip |};
     ctx := Fixture.background p skip;
     polls := 0; trace := [] |}.

(** A sub-iterator whose [Next] fails every time, for the fixtures. *)
Module Broken.

Inductive broken : Type := Failing (calls : nat).

#[global] Instance broken_iter `{Host} : RowRepoIter nat broken :=
  {| NewIterator it _ := (Some it, None);
     sub_Next '(Failing n) := (Failing (S n), inl (ErrHost "disk"));
     sub_Close _ := None |}.

End Broken.

(** A factory that returns neither an iterator nor an error, for the
    fixtures. *)
Module Careless.

Inductive careless : Type := Forgetful.

#[global] Instance careless_iter `{Host} : RowRepoIter nat careless :=
  {| NewIterator _ _ := (None, None);
     sub_Next it := (it, inl EOF);
     sub_Close _ := None |}.

End Careless.

(** * Properties *)

Example Join_sub : filepath.Join "root/sub" "r2.siva" = "root/sub/r2.siva".
Proof. reflexivity. Qed.

Example Join_dots : filepath.Join "/a/../../b/." "c//d/.." = "/b/c".
Proof. reflexivity. Qed.

Example Join_unrooted_dots : filepath.Join "../a/../.." "x" = "../../x".
Proof. reflexivity. Qed.

Example Base_trailing : filepath.Base "a/b//" = "b" ∧ filepath.Base "///" = "/".
Proof. split; reflexivity. Qed.

Example Replace_root :
  strings.Replace "root/sub" "root" "" = "/sub"
  ∧ strings.TrimPrefix "/sub" "/\" = "/sub"
  ∧ strings.Replace "abcabc" "bc" "-" = "a-a-".
Proof. repeat split; reflexivity. Qed.

Example HasSuffix_siva :
  strings.HasSuffix "r1.siva" ".siva" = true
  ∧ strings.HasSuffix "notes.txt" ".siva" = false
  ∧ strings.HasSuffix "iva" ".siva" = false.
Proof. repeat split; reflexivity. Qed.

(** ** The pool *)

Lemma Add_Some (repo r : repository) (p : RepositoryPool) :
  repositories p !! r_ID repo = Some r →
  Add repo p = (p, Some (errRepoAlreadyRegistered (r_Path r))).
Proof. intros Hr. unfold Add. by rewrite Hr. Qed.

Lemma Add_None (repo : repository) (p : RepositoryPool) :
  repositories p !! r_ID repo = None →
  Add repo p =
    ({| repositories := <[r_ID repo := repo]> (repositories p);
        idOrder := idOrder p ++ [r_ID repo] |}, None).
Proof. intros Hr. unfold Add. by rewrite Hr. Qed.

(** [Add] never removes or replaces a registered backend. *)
Lemma Add_lookup_mono (repo : repository) (p : RepositoryPool) id r :
  repositories p !! id = Some r →
  repositories (Add repo p).1 !! id = Some r.
Proof.
  intros Hr. unfold Add.
  destruct (repositories p !! r_ID repo) eqn:Hid; simpl; [done|].
  rewrite lookup_insert_ne; [done|]. intros <-. congruence.
Qed.

(** After [Add] the id of the backend is registered, by this call or by
    an earlier one. *)
Lemma Add_lookup_is_Some (repo : repository) (p : RepositoryPool) :
  is_Some (repositories (Add repo p).1 !! r_ID repo).
Proof.
  unfold Add. destruct (repositories p !! r_ID repo) eqn:Hid; simpl.
  - by rewrite Hid.
  - by rewrite lookup_insert_eq.
Qed.

Lemma AddAll_spec (rs : list repository) :
  ∀ p0 p, AddAll rs p0 = Some p →
    idOrder p = idOrder p0 ++ (r_ID <$> rs)
    ∧ size (repositories p) = size (repositories p0) + length rs
    ∧ (∀ r, r ∈ rs → repositories p !! r_ID r = Some r)
    ∧ (∀ id r, repositories p0 !! id = Some r → repositories p !! id = Some r).
Proof.
  induction rs as [|r rs IH]; intros p0 p; simpl.
  - intros [= <-]. rewrite app_nil_r. split_and!; [done|lia| |done].
    intros r Hr. by apply elem_of_nil in Hr.
  - unfold Add. destruct (repositories p0 !! r_ID r) eqn:Hid; [done|].
    intros Hall. apply IH in Hall as (Hord & Hsize & Hin & Hold). simpl in *.
    split_and!.
    + by rewrite Hord, <- app_assoc.
    + rewrite Hsize, map_size_insert_None by done. lia.
    + intros r' [->|Hr']%elem_of_cons; [|by apply Hin].
      apply Hold. by rewrite lookup_insert_eq.
    + intros id r' Hr'. apply Hold. rewrite lookup_insert_ne; [done|].
      intros <-. congruence.
Qed.

(** C5: registering a backend whose id is already in the pool fails with
    [errRepoAlreadyRegistered] carrying the path of the backend registered
    under that id, and the pool returned is the pool given (same mapping,
    same order); registering a fresh id returns no error, appends the id to
    [idOrder] and inserts the backend in the mapping.  There is no third
    outcome, so no partially updated pool. *)
Theorem Add_duplicate_or_fresh (repo : repository) (p : RepositoryPool) :
  (∀ r, repositories p !! r_ID repo = Some r →
     Add repo p = (p, Some (errRepoAlreadyRegistered (r_Path r))))
  ∧ (repositories p !! r_ID repo = None →
     ∃ p', Add repo p = (p', None)
       ∧ idOrder p' = idOrder p ++ [r_ID repo]
       ∧ repositories p' = <[r_ID repo := repo]> (repositories p)
       ∧ repositories p' !! r_ID repo = Some repo
       ∧ size (repositories p') = S (size (repositories p))).
Proof.
  split.
  - intros r Hr. by apply Add_Some.
  - intros Hr. eexists. split; [by apply Add_None|]. simpl.
    split_and!; [done|done|by rewrite lookup_insert_eq|].
    by rewrite map_size_insert_None.
Qed.

Lemma Add_duplicate_or_fresh_witness :
  let a := gitRepo "a" "/srv/a" in
  let a' := sivaRepo "a" "/srv/other.siva" in
  let p := Fixture.pool_of [a] in
  Add a' p = (p, Some (errRepoAlreadyRegistered "/srv/a"))
  ∧ ∃ p', Add (gitRepo "b" "/srv/b") p = (p', None)
      ∧ idOrder p' = ["a"; "b"].
Proof.
  intros a a' p. split.
  - apply (proj1 (Add_duplicate_or_fresh a' p) a). reflexivity.
  - destruct (proj2 (Add_duplicate_or_fresh (gitRepo "b" "/srv/b") p))
      as (p' & Hadd & Hord & _); [reflexivity|].
    exists p'. split; [exact Hadd|exact Hord].
Defined.

(** C9: [AddSivaFile] registers the file under the given id whatever its
    name: the pool it leaves is the pool [Add] leaves, the suffix test only
    decides whether a warning is logged, and the error of [Add] is dropped:
    on a registered id the pool is unchanged, nothing is returned and
    "repository added" is logged all the same. *)
Theorem AddSivaFile_ignores_suffix_and_error (id path : string)
    (p : RepositoryPool) :
  (AddSivaFile id path p).1 = (Add (sivaRepo id path) p).1
  ∧ (repositories p !! id = None →
       repositories (AddSivaFile id path p).1 !! id = Some (sivaRepo id path)
       ∧ idOrder (AddSivaFile id path p).1 = idOrder p ++ [id])
  ∧ (is_Some (repositories p !! id) → (AddSivaFile id path p).1 = p)
  ∧ (AddSivaFile id path p).2 =
      (if strings.HasSuffix (filepath.Base path) ".siva" then []
       else [Entry WarnLevel [("file", FString (filepath.Base path))]
                  "found a non-siva file"])
      ++ [Entry DebugLevel [("file", FString (filepath.Base path))]
                "repository added"].
Proof.
  unfold AddSivaFile.
  destruct (Add (sivaRepo id path) p) as [p' e] eqn:Hadd; simpl.
  split_and!.
  - done.
  - intros Hid. rewrite Add_None in Hadd by done.
    injection Hadd as <- <-. simpl. by rewrite lookup_insert_eq.
  - intros [r Hr]. rewrite (Add_Some _ r) in Hadd by done. congruence.
  - by destruct (strings.HasSuffix _ _).
Qed.

(** A file without the suffix is registered, with a warning; registering it
    again changes nothing and reports nothing. *)
Example AddSivaFile_notes :
  let p := (AddSivaFile "n" "/srv/notes.txt" NewRepositoryPool).1 in
  idOrder p = ["n"]
  ∧ repositories p !! "n" = Some (sivaRepo "n" "/srv/notes.txt")
  ∧ (AddSivaFile "n" "/srv/elsewhere.siva" p).1 = p.
Proof. repeat split; reflexivity. Qed.

(** ** Lookup by position *)

Section GetPosProperties.
Context `{Host}.

Lemma GetPos_lookup (p : RepositoryPool) (i : nat) (id : string) :
  i < size (repositories p) →
  idOrder p !! i = Some id →
  id ≠ "" →
  GetPos (Z.of_nat i) p = GetRepo id p.
Proof.
  intros Hi Hid Hne. unfold GetPos.
  destruct (Z.leb_spec (Z.of_nat (size (repositories p))) (Z.of_nat i));
    [lia|].
  destruct (Z.ltb_spec (Z.of_nat i) 0); [lia|].
  rewrite Nat2Z.id, Hid.
  destruct (String.eqb_spec id ""); [done|done].
Qed.

Lemma GetPos_size (p : RepositoryPool) :
  GetPos (Z.of_nat (size (repositories p))) p = Err EOF.
Proof. unfold GetPos. by rewrite Z.leb_refl. Qed.

(** In a pool built by successful registrations of backends with
    non-empty ids, position [i] resolves to opening the [i]-th backend. *)
Lemma GetPos_AddAll (rs : list repository) (p : RepositoryPool)
    (i : nat) (r : repository) :
  AddAll rs NewRepositoryPool = Some p →
  Forall (λ r, r_ID r ≠ "") rs →
  rs !! i = Some r →
  GetPos (Z.of_nat i) p = r_Repo r.
Proof.
  intros (Hord & Hsize & Hin & _)%AddAll_spec Hne Hi. simpl in *.
  rewrite map_size_empty in Hsize.
  rewrite (GetPos_lookup p i (r_ID r)).
  - unfold GetRepo. rewrite Hin; [done|]. by eapply list_elem_of_lookup_2.
  - apply lookup_lt_Some in Hi. lia.
  - by rewrite Hord, list_lookup_fmap, Hi.
  - eapply Forall_lookup_1 in Hne; [|done]. done.
Qed.

Lemma GetPos_AddAll_length (rs : list repository) (p : RepositoryPool) :
  AddAll rs NewRepositoryPool = Some p →
  GetPos (Z.of_nat (length rs)) p = Err EOF.
Proof.
  intros (_ & Hsize & _)%AddAll_spec. simpl in *.
  rewrite map_size_empty in Hsize. simpl in Hsize.
  rewrite <- Hsize. apply GetPos_size.
Qed.

(** C6, amended: in a pool built from N successful registrations of
    backends whose ids are not the empty string, [GetPos i] for [i] below
    N returns what opening the backend registered [i]-th returns (its
    [Repository], carrying its id, when it opens), and [GetPos N] returns
    [io.EOF]. *)
Theorem GetPos_registration_order (rs : list repository)
    (p : RepositoryPool) :
  AddAll rs NewRepositoryPool = Some p →
  Forall (λ r, r_ID r ≠ "") rs →
  (∀ i r, rs !! i = Some r →
     GetPos (Z.of_nat i) p = r_Repo r
     ∧ ∀ repo, r_Repo r = Ok repo →
         GetPos (Z.of_nat i) p = Ok repo ∧ ID repo = r_ID r)
  ∧ GetPos (Z.of_nat (length rs)) p = Err EOF.
Proof.
  intros Hall Hne. split; [|by apply GetPos_AddAll_length].
  intros i r Hi.
  assert (Hpos : GetPos (Z.of_nat i) p = r_Repo r) by by eapply GetPos_AddAll.
  split; [done|]. intros repo Hrepo. split; [congruence|].
  destruct r; simpl in *;
    unfold NewRepositoryFromPath, NewSivaRepositoryFromPath in Hrepo;
    [destruct (PlainOpen path)|destruct (SivaOpen path)];
    by simplify_eq.
Qed.

End GetPosProperties.

Lemma GetPos_registration_order_witness :
  let H := Fixture.host [] [] in
  let rs := [gitRepo "a" "/srv/a"; sivaRepo "b" "/srv/b.siva"] in
  GetPos 0 (Fixture.pool_of rs) = Ok (NewRepository "a" "/srv/a")
  ∧ GetPos 1 (Fixture.pool_of rs) = Ok (NewRepository "b" "/srv/b.siva")
  ∧ GetPos 2 (Fixture.pool_of rs) = Err EOF.
Proof.
  intros H rs.
  assert (Hall : AddAll rs NewRepositoryPool = Some (Fixture.pool_of rs))
    by reflexivity.
  assert (Hne : Forall (λ r, r_ID r ≠ "") rs)
    by (repeat constructor; discriminate).
  destruct (GetPos_registration_order rs _ Hall Hne) as [Hpos Hend].
  split_and!.
  - apply (proj2 (Hpos 0%nat (gitRepo "a" "/srv/a") eq_refl)). reflexivity.
  - apply (proj2 (Hpos 1%nat (sivaRepo "b" "/srv/b.siva") eq_refl)).
    reflexivity.
  - exact Hend.
Defined.

(** C6 as stated fails: a backend registered under the empty id is never
    returned by [GetPos], which answers [io.EOF] at its position although
    the registration succeeded and the backend opens. *)
Lemma GetPos_empty_id_is_EOF :
  let H := Fixture.host [] [] in
  let r := gitRepo "" "/srv/a" in
  ∃ p, AddAll [r] NewRepositoryPool = Some p
    ∧ r_Repo r = Ok (NewRepository "" "/srv/a")
    ∧ GetPos 0 p = Err EOF
    ∧ GetPos 0 p ≠ r_Repo r.
Proof.
  intros H r. eexists. split; [reflexivity|].
  split; [reflexivity|]. split; [reflexivity|discriminate].
Qed.

(** ** Bulk registration *)

Lemma extends_with_archives_refl (p : RepositoryPool) :
  extends_with_archives p p.
Proof. intros id. destruct (repositories p !! id); auto. Qed.

Lemma extends_with_archives_trans (p1 p2 p3 : RepositoryPool) :
  extends_with_archives p1 p2 →
  extends_with_archives p2 p3 →
  extends_with_archives p1 p3.
Proof.
  intros H12 H23 id. specialize (H12 id). specialize (H23 id).
  destruct (repositories p1 !! id) as [r|].
  - by rewrite H12 in H23.
  - destruct H12 as [H12|H12]; rewrite H12 in H23; simpl in H23; auto.
Qed.

Lemma extends_with_archives_is_Some (p p' : RepositoryPool) id :
  extends_with_archives p p' →
  is_Some (repositories p !! id) →
  is_Some (repositories p' !! id).
Proof. intros Hext [r Hr]. specialize (Hext id). rewrite Hr in Hext. eauto. Qed.


Lemma Add_sivaRepo_extends (id : string) (p : RepositoryPool) :
  extends_with_archives p (Add (sivaRepo id id) p).1.
Proof.
  intros id'. unfold Add. simpl.
  destruct (repositories p !! id) eqn:Hid; simpl.
  - destruct (repositories p !! id'); auto.
  - destruct (decide (id = id')) as [<-|Hne].
    + rewrite Hid, lookup_insert_eq. auto.
    + rewrite lookup_insert_ne by done. destruct (repositories p !! id'); auto.
Qed.

Lemma addSivaFile_archive (root path : string) (f : FileInfo)
    (p : RepositoryPool) :
  strings.HasSuffix (Name f) ".siva" = true →
  addSivaFile root path f p =
    ((Add (sivaRepo (filepath.Join path (Name f))
                    (filepath.Join path (Name f))) p).1,
     [Entry DebugLevel [("file", FString (relativeFileName root path f))]
            "repository added"]).
Proof. intros Hs. unfold addSivaFile. rewrite Hs. by destruct (Add _ p). Qed.

Lemma addSivaFile_other (root path : string) (f : FileInfo)
    (p : RepositoryPool) :
  strings.HasSuffix (Name f) ".siva" = false →
  addSivaFile root path f p =
    (p, [Entry WarnLevel [("file", FString (relativeFileName root path f))]
               "found a non-siva file, skipping"]).
Proof. intros Hs. unfold addSivaFile. by rewrite Hs. Qed.

Lemma addSivaFile_extends (root path : string) (f : FileInfo)
    (p : RepositoryPool) :
  extends_with_archives p (addSivaFile root path f p).1.
Proof.
  destruct (strings.HasSuffix (Name f) ".siva") eqn:Hs.
  - rewrite addSivaFile_archive by done. apply Add_sivaRepo_extends.
  - rewrite addSivaFile_other by done. apply extends_with_archives_refl.
Qed.

Section ScanProperties.
Context `{Host}.

(** The log given to the loop is a prefix of the log it returns. *)
Lemma addSivaDir_loop_log sub root path recursive dirs :
  ∀ p lg,
    addSivaDir_loop sub root path recursive dirs p lg =
      let '(p', lg', e) := addSivaDir_loop sub root path recursive dirs p [] in
      (p', lg ++ lg', e).
Proof.
  induction dirs as [|f dirs IH]; intros p lg; simpl.
  - by rewrite app_nil_r.
  - destruct (IsDir f && recursive).
    + destruct (sub _ p) as [[p1 l1] [e|]]; [done|].
      rewrite (IH p1 (lg ++ l1)), (IH p1 l1).
      destruct (addSivaDir_loop _ _ _ _ _ p1 []) as [[p2 l2] e].
      by rewrite app_assoc.
    + destruct (addSivaFile root path f p) as [p1 l1].
      rewrite (IH p1 (lg ++ l1)), (IH p1 l1).
      destruct (addSivaDir_loop _ _ _ _ _ p1 []) as [[p2 l2] e].
      by rewrite app_assoc.
Qed.


(** A scan without recursion never fails once the directory is listed: it
    registers every entry with the suffix under the joined path and logs a
    warning for every other entry. *)
Lemma addSivaDir_loop_flat sub root path dirs :
  ∀ p, ∃ p' lg,
    addSivaDir_loop sub root path false dirs p [] = (p', lg, None)
    ∧ extends_with_archives p p'
    ∧ (∀ f, f ∈ dirs → strings.HasSuffix (Name f) ".siva" = true →
         is_Some (repositories p' !! filepath.Join path (Name f)))
    ∧ (∀ f, f ∈ dirs → strings.HasSuffix (Name f) ".siva" = false →
         Entry WarnLevel [("file", FString (relativeFileName root path f))]
               "found a non-siva file, skipping" ∈ lg).
Proof.
  induction dirs as [|f dirs IH]; intros p; simpl.
  - exists p, []. split_and!; [done|apply extends_with_archives_refl| |];
      intros f Hf; by apply elem_of_nil in Hf.
  - rewrite andb_false_r.
    destruct (addSivaFile root path f p) as [p1 l1] eqn:Hf.
    destruct (IH p1) as (p' & lg & Hloop & Hext & Hreg & Hwarn).
    rewrite addSivaDir_loop_log, Hloop. exists p', (l1 ++ lg).
    assert (Hext1 : extends_with_archives p p1).
    { replace p1 with (addSivaFile root path f p).1 by by rewrite Hf.
      apply addSivaFile_extends. }
    split_and!; [done|by eapply extends_with_archives_trans| |].
    + intros g [->|Hg]%elem_of_cons Hs; [|by apply Hreg].
      eapply extends_with_archives_is_Some; [done|].
      rewrite addSivaFile_archive in Hf by done. injection Hf as <- _.
      apply (Add_lookup_is_Some (sivaRepo _ _)).
    + intros g [->|Hg]%elem_of_cons Hs.
      * rewrite addSivaFile_other in Hf by done. injection Hf as _ <-.
        apply elem_of_app. left. apply list_elem_of_singleton. done.
      * apply elem_of_app. right. by apply Hwarn.
Qed.

Lemma addSivaDir_sub_readable root dirPath sub p :
  ReadDir dirPath = inr sub →
  addSivaDir_sub root dirPath p =
    addSivaDir_loop (λ _ p', (p', [], None)) root dirPath false sub p [].
Proof. intros Hsub. unfold addSivaDir_sub, addSivaDir_with. by rewrite Hsub. Qed.

Lemma addSivaDir_sub_unreadable root dirPath err p :
  ReadDir dirPath = inl err →
  addSivaDir_sub root dirPath p = (p, [], Some err).
Proof. intros Hsub. unfold addSivaDir_sub, addSivaDir_with. by rewrite Hsub. Qed.


End ScanProperties.

Section BulkProperties.
Context `{Host}.


Lemma AddSivaDir_readable root dirs p :
  ReadDir root = inr dirs →
  AddSivaDir root p =
    addSivaDir_loop (addSivaDir_sub root) root root true dirs p [].
Proof.
  intros Hroot. unfold AddSivaDir, addSivaDir, addSivaDir_with.
  by rewrite Hroot.
Qed.





End BulkProperties.

Section BulkTheorems.
Context `{Host}.


End BulkTheorems.

(** A root with an archive, a directory holding an archive, and a text
    file. *)
Example AddSivaDir_tree :
  let H := Fixture.host []
    [("root", [Fixture.file "r1.siva"; Fixture.dir "sub";
               Fixture.file "notes.txt"]);
     ("root/sub", [Fixture.file "r2.siva"])] in
  ∃ p lg, AddSivaDir "root" NewRepositoryPool = (p, lg, None)
    ∧ idOrder p = ["root/r1.siva"; "root/sub/r2.siva"]
    ∧ lg = [Entry DebugLevel [("file", FString "r1.siva")] "repository added";
            Entry DebugLevel [("file", FString "/sub/r2.siva")]
                  "repository added";
            Entry WarnLevel [("file", FString "notes.txt")]
                  "found a non-siva file, skipping"].
Proof. intros H. eexists _, _. split; [reflexivity|]. split; reflexivity. Qed.




(** ** The composite iterator: one iteration of the loop *)

Section LoopProperties.
Context `{Host} {Row I : Type} `{!RowRepoIter Row I}.
Implicit Types (i j : rowRepoIter (I := I)) (it : I).

Lemma loop_body_canceled i :
  Done (ctx i) (polls i) = true →
  loop_body i = (poll i, ReturnErr ErrSessionCanceled).
Proof. intros Hdone. unfold loop_body. by rewrite Hdone. Qed.

Lemma loop_body_active i it :
  Done (ctx i) (polls i) = false →
  currRepoIter i = Some it →
  loop_body i = next_row (poll i).
Proof. intros Hdone Hcur. unfold loop_body. rewrite Hdone. simpl. by rewrite Hcur. Qed.

Lemma next_row_row j it it' row :
  currRepoIter j = Some it →
  sub_Next it = (it', inr row) →
  next_row j =
    (set_currRepoIter (Some it') (record (EvNext it) j), Return row).
Proof. intros Hcur Hnext. unfold next_row. by rewrite Hcur, Hnext. Qed.

Lemma next_row_EOF j it it' :
  currRepoIter j = Some it →
  sub_Next it = (it', inl EOF) →
  next_row j =
    (set_currRepoIter None
       (record (EvClose it')
          (set_currRepoIter (Some it') (record (EvNext it) j))),
     Continue).
Proof. intros Hcur Hnext. unfold next_row. by rewrite Hcur, Hnext. Qed.

Lemma next_row_error j it it' err :
  currRepoIter j = Some it →
  sub_Next it = (it', inl err) →
  is_EOF err = false →
  next_row j =
    (set_currRepoIter (Some it') (record (EvNext it) j),
     if SkipGitErrors (session j) then Continue else ReturnErr err).
Proof.
  intros Hcur Hnext Herr. unfold next_row. rewrite Hcur, Hnext, Herr. simpl.
  by destruct (SkipGitErrors (session j)).
Qed.

(** C4: whatever the state of the iterator (idle or with an active
    sub-iterator) and whatever [SkipGitErrors], an iteration of the loop
    entered with the cancellation signal set returns [ErrSessionCanceled]
    before anything else happens: no call is made on a collaborator, the
    active sub-iterator and the cursor are as they were.  So does [Next],
    whose first iteration it is. *)
Theorem cancellation_checked_first i (fuel : nat) :
  Done (ctx i) (polls i) = true →
  loop_body i = (poll i, ReturnErr ErrSessionCanceled)
  ∧ Next (S fuel) i = Some (poll i, Err ErrSessionCanceled)
  ∧ currRepoIter (poll i) = currRepoIter i
  ∧ repositoryIter (poll i) = repositoryIter i
  ∧ trace (poll i) = trace i.
Proof.
  intros Hdone. split; [by apply loop_body_canceled|].
  split; [|done]. simpl. by rewrite loop_body_canceled.
Qed.

End LoopProperties.

Lemma cancellation_checked_first_witness :
  let H := Fixture.host [] [] in
  let i := Fixture.active true (λ n, Nat.eqb n 3)
             [inr 1; inr 2] in
  Next 5 i = Some (poll i, Err ErrSessionCanceled)
  ∧ currRepoIter (poll i) = Some (Fixture.Cursor [inr 1; inr 2])
  ∧ trace (poll i) = [].
Proof.
  intros H i.
  destruct (cancellation_checked_first i 4 eq_refl)
    as (_ & Hnext & Hcur & _ & Htrace).
  split; [exact Hnext|]. split; [exact Hcur|exact Htrace].
Defined.


(** ** The composite iterator: whole runs *)

Lemma wrap32_succ (z : Z) :
  (0 ≤ z)%Z → (z + 1 < 2 ^ 31)%Z → wrap32 (z + 1) = (z + 1)%Z.
Proof.
  intros H0 H1. unfold wrap32.
  change (2 ^ 31)%Z with 2147483648%Z in *.
  change (2 ^ 32)%Z with 4294967296%Z.
  rewrite Z.mod_small by lia. lia.
Qed.

(** After [2^31 - 1] the position wraps to a negative number, at which
    [GetPos] indexes the slice out of range. *)
Example cursor_wraps `{Host} (p : RepositoryPool) :
  wrap32 (2 ^ 31 - 1 + 1) = (- 2 ^ 31)%Z
  ∧ (0 < size (repositories p) →
     RepositoryIter_Next {| pos := - 2 ^ 31; pool := p |} =
       ({| pos := - 2 ^ 31; pool := p |}, Panic)).
Proof.
  split; [reflexivity|]. intros Hsize.
  unfold RepositoryIter_Next, GetPos. simpl.
  destruct (Z.leb_spec (Z.of_nat (size (repositories p))) (- 2 ^ 31)); [lia|].
  reflexivity.
Qed.

Section RunProperties.
Context `{Host} {Row I : Type} `{!RowRepoIter Row I}.
Implicit Types (i j : rowRepoIter (I := I)) (it : I).

Lemma pulled_app (tr1 tr2 : list (event (I := I))) :
  pulled (tr1 ++ tr2) = pulled tr1 ++ pulled tr2.
Proof.
  induction tr1 as [|e tr1 IH]; [done|].
  destruct e; simpl; by rewrite IH.
Qed.

Lemma run_app i1 i2 i3 (rows1 rows2 : list Row) :
  run i1 rows1 i2 → run i2 rows2 i3 → run i1 (rows1 ++ rows2) i3.
Proof.
  induction 1 as [i|i i1 rows i' Hbody _ IH|i i1 row rows i' Hbody _ IH];
    intros Hrun; simpl.
  - done.
  - eapply run_continue; eauto.
  - eapply run_return; eauto.
Qed.

Lemma Next_continue i i1 fuel :
  loop_body i = (i1, Continue) → Next (S fuel) i = Next fuel i1.
Proof. intros Hbody. simpl. by rewrite Hbody. Qed.

Lemma Next_return i i1 (row : Row) fuel :
  loop_body i = (i1, Return row) → Next (S fuel) i = Some (i1, Ok row).
Proof. intros Hbody. simpl. by rewrite Hbody. Qed.

(** A run followed by a call of [Next] that returns [r] is a sequence of
    calls of [Next] returning the rows of the run, then one returning [r]. *)
Lemma run_yields i (rows : list Row) i' :
  run i rows i' →
  ∀ fuel i'' r, Next fuel i' = Some (i'', r) →
    ∃ i1 fuel', yields i rows i1 ∧ Next fuel' i1 = Some (i'', r).
Proof.
  induction 1 as [i|i i1 rows i' Hbody _ IH|i i1 row rows i' Hbody _ IH];
    intros fuel i'' r Hnext.
  - exists i, fuel. split; [constructor|done].
  - destruct (IH _ _ _ Hnext) as (i2 & fuel' & Hy & Hlast).
    inversion Hy as [|? fuel1 i3 row rows' ? Hfirst Hrest]; subst.
    + exists i, (S fuel'). split; [constructor|].
      by rewrite (Next_continue _ i2).
    + exists i2, fuel'. split; [|done].
      apply (yields_cons _ (S fuel1) i3); [|done].
      by rewrite (Next_continue _ i1).
  - destruct (IH _ _ _ Hnext) as (i2 & fuel' & Hy & Hlast).
    exists i2, fuel'. split; [|done].
    apply (yields_cons _ 1 i1); [|done]. by apply Next_return.
Qed.

(** The iterations spent on one sub-iterator: its rows are returned in its
    order, then it is closed and the iterator is idle again, the cursor
    where it was. *)
Lemma run_active it (rows : list Row) :
  produces it rows →
  ∀ i j,
    currRepoIter j = Some it →
    (∀ n, Done (ctx j) n = false) →
    loop_body i = next_row j →
    ∃ i', run i rows i'
      ∧ currRepoIter i' = None
      ∧ repositoryIter i' = repositoryIter j
      ∧ iter i' = iter j ∧ session i' = session j ∧ ctx i' = ctx j
      ∧ pulled (trace i') = pulled (trace j).
Proof.
  induction 1 as [it it' Hnext|it it' row rows Hnext _ IH];
    intros i j Hcur Hdone Hbody.
  - rewrite (next_row_EOF _ it it') in Hbody by done.
    eexists. split; [eapply run_continue; [done|constructor]|].
    simpl. split_and!; try done.
    rewrite !pulled_app. simpl. by rewrite !app_nil_r.
  - rewrite (next_row_row _ it it' row) in Hbody by done.
    set (j1 := set_currRepoIter (Some it') (record (EvNext it) j)) in *.
    destruct (IH j1 (poll j1)) as (i' & Hrun & Hidle & Hpos & Hit & Hs & Hc & Hp).
    + done.
    + intros n. apply Hdone.
    + apply (loop_body_active _ it'); [apply Hdone|done].
    + exists i'. split; [by eapply run_return|].
      split_and!; try done.
      rewrite Hp. simpl. rewrite pulled_app. simpl. by rewrite app_nil_r.
Qed.

End RunProperties.

Section PoolRuns.
Context `{Host} {Row I : Type} `{!RowRepoIter Row I}.
Implicit Types (i j : rowRepoIter (I := I)) (it : I).

Lemma loop_body_pull_error i (err : error) :
  Done (ctx i) (polls i) = false →
  currRepoIter i = None →
  GetPos (pos (repositoryIter i)) (pool (repositoryIter i)) = Err err →
  loop_body i =
    (pulled_one i,
     if is_EOF err then ReturnErr EOF
     else if SkipGitErrors (session i) then Continue
     else ReturnErr err).
Proof.
  intros Hdone Hcur Hpos. unfold loop_body, RepositoryIter_Next.
  rewrite Hdone. simpl. rewrite Hcur, Hpos. simpl.
  destruct (is_EOF err); [done|]. by destruct (SkipGitErrors (session i)).
Qed.

Lemma loop_body_pull_new_error i (repo : Repository) (c : option I)
    (err : error) :
  Done (ctx i) (polls i) = false →
  currRepoIter i = None →
  GetPos (pos (repositoryIter i)) (pool (repositoryIter i)) = Ok repo →
  NewIterator (iter i) repo = (c, Some err) →
  loop_body i =
    (set_currRepoIter c (record (EvNewIterator (ID repo)) (pulled_one i)),
     if SkipGitErrors (session i) then Continue else ReturnErr err).
Proof.
  intros Hdone Hcur Hpos Hnew. unfold loop_body, RepositoryIter_Next.
  rewrite Hdone. simpl. rewrite Hcur, Hpos. simpl. rewrite Hnew. simpl.
  by destruct (SkipGitErrors (session i)).
Qed.

Lemma loop_body_pull_new i (repo : Repository) (c : option I) :
  Done (ctx i) (polls i) = false →
  currRepoIter i = None →
  GetPos (pos (repositoryIter i)) (pool (repositoryIter i)) = Ok repo →
  NewIterator (iter i) repo = (c, None) →
  loop_body i =
    next_row
      (set_currRepoIter c (record (EvNewIterator (ID repo)) (pulled_one i))).
Proof.
  intros Hdone Hcur Hpos Hnew. unfold loop_body, RepositoryIter_Next.
  rewrite Hdone. simpl. rewrite Hcur, Hpos. simpl. by rewrite Hnew.
Qed.

Variables (rs : list repository) (p : RepositoryPool) (f : I).
Hypothesis Hall : AddAll rs NewRepositoryPool = Some p.
Hypothesis Hne : Forall (λ r, r_ID r ≠ "") rs.
Hypothesis Hsize : (Z.of_nat (length rs) < 2 ^ 31)%Z.

(** From an idle iterator whose cursor is at position [k]: the backends
    from [k] on are visited once each, in order; those that produce rows
    contribute them, the others are passed over (which takes fault
    tolerance); the cursor ends at the size of the pool. *)
Lemma run_pool (rs' : list repository) (bs : list (behaviour (Row := Row))) :
  Forall2 (behaves f) rs' bs →
  ∀ i (k : nat),
    (k ≤ length rs)%nat →
    drop k rs = rs' →
    currRepoIter i = None →
    repositoryIter i = {| pos := Z.of_nat k; pool := p |} →
    iter i = f →
    (∀ n, Done (ctx i) n = false) →
    SkipGitErrors (session i) = true ∨ Forall is_Rows bs →
    ∃ i', run i (concat (rows_of <$> bs)) i'
      ∧ currRepoIter i' = None
      ∧ repositoryIter i' = {| pos := Z.of_nat (length rs); pool := p |}
      ∧ iter i' = f ∧ session i' = session i ∧ ctx i' = ctx i
      ∧ pulled (trace i') =
          pulled (trace i) ++ (Z.of_nat <$> seq k (length rs')).
Proof.
  induction 1 as [|r b rs' bs Hb _ IH];
    intros i k Hk Hdrop Hcur Hpos Hit Hdone Hskip.
  - exists i. simpl. rewrite app_nil_r.
    split_and!; try done; [constructor|].
    apply (f_equal length) in Hdrop. rewrite length_drop in Hdrop.
    simpl in Hdrop. rewrite Hpos. do 2 f_equal. lia.
  - assert (Hr : rs !! k = Some r).
    { rewrite <- (Nat.add_0_r k), <- lookup_drop, Hdrop. done. }
    assert (Hlt : (k < length rs)%nat) by by eapply lookup_lt_Some.
    assert (Hdrop' : drop (S k) rs = rs').
    { replace (S k) with (k + 1) by lia.
      rewrite <- drop_drop, Hdrop. done. }
    assert (Hget : GetPos (pos (repositoryIter i)) (pool (repositoryIter i))
                   = r_Repo r).
    { rewrite Hpos. simpl. by eapply GetPos_AddAll. }
    assert (Hnextpos : pulled_one i =
              set_repositoryIter {| pos := Z.of_nat (S k); pool := p |}
                (record (EvRepositoryNext (Z.of_nat k)) (poll i))).
    { unfold pulled_one. rewrite Hpos. simpl.
      rewrite wrap32_succ by lia. do 2 f_equal. lia. }
    assert (Hskip' : SkipGitErrors (session i) = true ∨ Forall is_Rows bs).
    { destruct Hskip as [?|Hrows]; [by left|right].
      by apply Forall_cons in Hrows as [_ ?]. }
    assert (Htail : ∀ i1,
              run i (rows_of b) i1 →
              currRepoIter i1 = None →
              repositoryIter i1 = {| pos := Z.of_nat (S k); pool := p |} →
              iter i1 = f → session i1 = session i → ctx i1 = ctx i →
              pulled (trace i1) = pulled (trace i) ++ [Z.of_nat k] →
              ∃ i', run i (concat (rows_of <$> b :: bs)) i'
                ∧ currRepoIter i' = None
                ∧ repositoryIter i' =
                    {| pos := Z.of_nat (length rs); pool := p |}
                ∧ iter i' = f ∧ session i' = session i ∧ ctx i' = ctx i
                ∧ pulled (trace i') =
                    pulled (trace i)
                    ++ (Z.of_nat <$> seq k (length (r :: rs')))).
    { intros i1 Hrun1 Hcur1 Hpos1 Hit1 Hs1 Hc1 Hp1.
      destruct (IH i1 (S k)) as (i' & Hrun & Hidle & Hend & Hit' & Hs & Hc & Hp);
        try done.
      - intros n. rewrite Hc1. apply Hdone.
      - by rewrite Hs1.
      - exists i'. split; [by eapply run_app|].
        split_and!; try congruence.
        rewrite Hp, Hp1, <- app_assoc. done. }
    destruct b as [rows| |]; simpl in Hb.
    + destruct Hb as (repo & it & Hopen & Hnew & Hprod).
      rewrite Hopen in Hget. rewrite <- Hit in Hnew.
      pose proof (loop_body_pull_new i repo (Some it) (Hdone _) Hcur Hget Hnew)
        as Hbody.
      set (j := set_currRepoIter (Some it)
                  (record (EvNewIterator (ID repo)) (pulled_one i))) in Hbody.
      destruct (run_active it rows Hprod i j)
        as (i1 & Hrun1 & Hcur1 & Hpos1 & Hit1 & Hs1 & Hc1 & Hp1);
        [done|intros n; apply Hdone|done|].
      apply (Htail i1); [done|done| |by rewrite Hit1|exact Hs1|exact Hc1|].
      * rewrite Hpos1. unfold j. by rewrite Hnextpos.
      * rewrite Hp1. unfold j. rewrite Hnextpos. simpl.
        rewrite !pulled_app. simpl. by rewrite app_nil_r.
    + destruct Hb as (err & Hopen & Herr).
      destruct Hskip as [Hskip|Hrows];
        [|by apply Forall_cons in Hrows as [[] _]].
      rewrite Hopen in Hget.
      pose proof (loop_body_pull_error i err (Hdone _) Hcur Hget) as Hbody.
      rewrite Herr, Hskip in Hbody.
      apply (Htail (pulled_one i)).
      * eapply run_continue; [done|constructor].
      * done.
      * by rewrite Hnextpos.
      * done.
      * done.
      * done.
      * rewrite Hnextpos. simpl. by rewrite pulled_app.
    + destruct Hb as (repo & err & Hopen & Hnew).
      destruct Hskip as [Hskip|Hrows];
        [|by apply Forall_cons in Hrows as [[] _]].
      rewrite Hopen in Hget. rewrite <- Hit in Hnew.
      pose proof (loop_body_pull_new_error i repo None err (Hdone _) Hcur
                    Hget Hnew) as Hbody.
      rewrite Hskip in Hbody.
      apply (Htail (set_currRepoIter None
                      (record (EvNewIterator (ID repo)) (pulled_one i)))).
      * eapply run_continue; [done|constructor].
      * done.
      * by rewrite Hnextpos.
      * done.
      * done.
      * done.
      * rewrite Hnextpos. simpl. rewrite !pulled_app. simpl.
        by rewrite app_nil_r.
Qed.

End PoolRuns.

Section Flattening.
Context `{Host} {Row I : Type} `{!RowRepoIter Row I}.
Implicit Types (i j : rowRepoIter (I := I)) (it : I).

Lemma concat_rows_of_Rows (rowss : list (list Row)) :
  concat (rows_of <$> (Rows <$> rowss)) = concat rowss.
Proof.
  induction rowss as [|rows rowss IH]; [done|].
  rewrite !fmap_cons. simpl. by rewrite IH.
Qed.

Lemma Forall_is_Rows (rowss : list (list Row)) :
  Forall is_Rows (Rows <$> rowss).
Proof. induction rowss; [constructor|]. rewrite fmap_cons. by constructor. Qed.

Lemma Forall2_behaves_Rows (f : I) rs (rowss : list (list Row)) :
  Forall2 (λ r rows, behaves f r (Rows rows)) rs rowss →
  Forall2 (behaves f) rs (Rows <$> rowss).
Proof. induction 1; [constructor|]. rewrite fmap_cons. by constructor. Qed.

Lemma length_concat_rows (rowss : list (list Row)) :
  length (concat rowss) = sum_list (length <$> rowss).
Proof.
  induction rowss as [|rows rowss IH]; [done|].
  rewrite fmap_cons. simpl. by rewrite length_app, IH.
Qed.

(** The iterator [NewRowRepoIter] builds over a pool of backends with
    non-empty ids, never canceled: successive calls of [Next] return the
    rows of the backends that produce rows, in registration order, then
    [io.EOF]; the cursor has been asked for the positions 0 to N, once
    each.  Backends that do not produce rows are passed over, which takes
    fault tolerance. *)
Lemma driver_flattens (rs : list repository) (p : RepositoryPool)
    (bs : list (behaviour (Row := Row))) (c : Context) (s : Session)
    (f : I) i0 :
  AddAll rs NewRepositoryPool = Some p →
  Forall (λ r, r_ID r ≠ "") rs →
  (Z.of_nat (length rs) < 2 ^ 31)%Z →
  ctx_Session c = Some s →
  Pool s = p →
  (∀ n, Done c n = false) →
  Forall2 (behaves f) rs bs →
  SkipGitErrors s = true ∨ Forall is_Rows bs →
  NewRowRepoIter c f = Ok i0 →
  ∃ i1 i2 fuel,
    yields i0 (concat (rows_of <$> bs)) i1
    ∧ Next fuel i1 = Some (i2, Err EOF)
    ∧ pulled (trace i2) = Z.of_nat <$> seq 0 (S (length rs)).
Proof.
  intros Hall Hne Hsize Hs Hp Hdone Hbs Hskip Hnew.
  unfold NewRowRepoIter in Hnew. rewrite Hs in Hnew. injection Hnew as <-.
  set (i0 := {| currRepoIter := None; repositoryIter := RepoIter (Pool s);
                iter := f; session := s; ctx := c; polls := 0;
                trace := [] |}).
  destruct (run_pool rs p f Hall Hne Hsize rs bs Hbs i0 0%nat)
    as (i' & Hrun & Hidle & Hpos & Hit & Hses & Hctx & Hpulled);
    [lia|done|done|by rewrite <- Hp|done|done|done|].
  simpl in Hses, Hctx, Hpulled.
  assert (Hbody : loop_body i' = (pulled_one i', ReturnErr EOF)).
  { rewrite (loop_body_pull_error i' EOF); [done| |done|].
    - rewrite Hctx. apply Hdone.
    - rewrite Hpos. simpl. by apply GetPos_AddAll_length. }
  assert (Hlast : Next 1 i' = Some (pulled_one i', Err EOF)).
  { simpl. by rewrite Hbody. }
  destruct (run_yields _ _ _ Hrun _ _ _ Hlast) as (i1 & fuel & Hy & Hend).
  exists i1, (pulled_one i'), fuel. split_and!; [done|done|].
  rewrite seq_S, fmap_app.
  unfold pulled_one. simpl. by rewrite pulled_app, Hpulled, Hpos.
Qed.

(** C1, amended: over a pool of fewer than 2^31 backends, none registered
    under the empty id, whose backends open and whose sub-iterators return
    the row sequences [rowss] (of lengths k1..kN) and then [io.EOF], the
    iterator built by [NewRowRepoIter], never canceled, returns on successive
    calls of [Next] exactly the rows of [rowss] concatenated (k1+...+kN
    rows, those of one backend next to each other and in its sub-iterator's
    order, backends in registration order), every call returning a row, then
    [io.EOF]; the cursor has been asked for each position once, in order. *)
Theorem composite_iteration_flattens (rs : list repository)
    (rowss : list (list Row)) (p : RepositoryPool) (c : Context)
    (s : Session) (f : I) i0 :
  AddAll rs NewRepositoryPool = Some p →
  Forall (λ r, r_ID r ≠ "") rs →
  (Z.of_nat (length rs) < 2 ^ 31)%Z →
  ctx_Session c = Some s →
  Pool s = p →
  (∀ n, Done c n = false) →
  Forall2 (λ r rows, behaves f r (Rows rows)) rs rowss →
  NewRowRepoIter c f = Ok i0 →
  ∃ i1 i2 fuel,
    yields i0 (concat rowss) i1
    ∧ length (concat rowss) = sum_list (length <$> rowss)
    ∧ Next fuel i1 = Some (i2, Err EOF)
    ∧ pulled (trace i2) = Z.of_nat <$> seq 0 (S (length rs)).
Proof.
  intros Hall Hne Hsize Hs Hp Hdone Hrows Hnew.
  destruct (driver_flattens rs p (Rows <$> rowss) c s f i0)
    as (i1 & i2 & fuel & Hy & Hend & Hpulled); try done.
  - by apply Forall2_behaves_Rows.
  - right. apply Forall_is_Rows.
  - rewrite concat_rows_of_Rows in Hy.
    exists i1, i2, fuel. split_and!; try done. apply length_concat_rows.
Qed.

(** C3, amended: over a pool of fewer than 2^31 backends, none registered
    under the empty id, in which one backend fails to open (with an error
    other than [io.EOF]) or has [NewIterator] fail, the others producing the
    row sequences [rowss1] (those registered before it) and [rowss2] (those
    after it), the iterator with fault tolerance, never canceled, returns on
    successive calls of [Next] the rows of the other backends, in
    registration order, then [io.EOF]: no call returns the failure. *)
Theorem fault_tolerance_skips_failing_repository
    (rs1 rs2 : list repository) (bad : repository)
    (rowss1 rowss2 : list (list Row)) (p : RepositoryPool) (c : Context)
    (s : Session) (f : I) i0 :
  AddAll (rs1 ++ bad :: rs2) NewRepositoryPool = Some p →
  Forall (λ r, r_ID r ≠ "") (rs1 ++ bad :: rs2) →
  (Z.of_nat (length (rs1 ++ bad :: rs2)) < 2 ^ 31)%Z →
  ctx_Session c = Some s →
  Pool s = p →
  SkipGitErrors s = true →
  (∀ n, Done c n = false) →
  Forall2 (λ r rows, behaves f r (Rows rows)) rs1 rowss1 →
  behaves f bad (OpenFails (Row := Row))
  ∨ behaves f bad (NewIteratorFails (Row := Row)) →
  Forall2 (λ r rows, behaves f r (Rows rows)) rs2 rowss2 →
  NewRowRepoIter c f = Ok i0 →
  ∃ i1 i2 fuel,
    yields i0 (concat rowss1 ++ concat rowss2) i1
    ∧ Next fuel i1 = Some (i2, Err EOF).
Proof.
  intros Hall Hne Hsize Hs Hp Hskip Hdone Hrows1 Hbad Hrows2 Hnew.
  assert (∃ b, behaves f bad b ∧ rows_of b = []) as (b & Hb & Hnone).
  { destruct Hbad; [by exists OpenFails|by exists NewIteratorFails]. }
  destruct (driver_flattens (rs1 ++ bad :: rs2) p
              ((Rows <$> rowss1) ++ b :: (Rows <$> rowss2)) c s f i0)
    as (i1 & i2 & fuel & Hy & Hend & _); try done.
  - apply Forall2_app; [by apply Forall2_behaves_Rows|].
    constructor; [done|by apply Forall2_behaves_Rows].
  - by left.
  - exists i1, i2, fuel. split; [|done].
    rewrite fmap_app, concat_app in Hy. simpl in Hy.
    by rewrite Hnone, !concat_rows_of_Rows in Hy.
Qed.

End Flattening.

(** The scenario of the pool ["a"; "b"]: "a" returns the rows 1 and 2, "b"
    the row 3. *)
Example scenario_a_b :
  let H := Fixture.host [] [] in
  let p := Fixture.pool_of [gitRepo "a" "/srv/a"; gitRepo "b" "/srv/b"] in
  let i := Fixture.driver p false
             [("a", inr [inr 1; inr 2]); ("b", inr [inr 3])] in
  (consume 10 10 i).1 = ([1; 2; 3], Some (Err EOF))
  ∧ pulled (trace (consume 10 10 i).2) = [0; 1; 2]%Z.
Proof. split; reflexivity. Qed.

Lemma composite_iteration_flattens_witness :
  let H := Fixture.host [] [] in
  let p := Fixture.pool_of [gitRepo "a" "/srv/a"; gitRepo "b" "/srv/b"] in
  let i := Fixture.driver p false
             [("a", inr [inr 1; inr 2]); ("b", inr [inr 3])] in
  ∃ i1 i2 fuel, yields i [1; 2; 3] i1 ∧ Next fuel i1 = Some (i2, Err EOF).
Proof.
  intros H p i.
  destruct (composite_iteration_flattens
              [gitRepo "a" "/srv/a"; gitRepo "b" "/srv/b"] [[1; 2]; [3]] p
              (Fixture.background p false)
              {| Pool := p; SkipGitErrors := false |}
              (Fixture.Factory [("a", inr [inr 1; inr 2]); ("b", inr [inr 3])])
              i)
    as (i1 & i2 & fuel & Hy & _ & Hend & _).
  - reflexivity.
  - repeat constructor; discriminate.
  - reflexivity.
  - reflexivity.
  - reflexivity.
  - intros n. reflexivity.
  - constructor; [|constructor; [|constructor]].
    + eexists _, _.
      split; [reflexivity|]. split; [reflexivity|].
      eapply produces_cons; [reflexivity|].
      eapply produces_cons; [reflexivity|].
      eapply produces_nil. reflexivity.
    + eexists _, _.
      split; [reflexivity|]. split; [reflexivity|].
      eapply produces_cons; [reflexivity|].
      eapply produces_nil. reflexivity.
  - reflexivity.
  - exists i1, i2, fuel. split; [exact Hy|exact Hend].
Defined.

(** C1 as stated fails: in the pool ["", "b"] both backends open, the
    first produces the rows 1 and 2 and the second the row 3, but the first
    call of [Next] returns [io.EOF]: no row is returned. *)
Lemma empty_id_ends_iteration :
  let H := Fixture.host [] [] in
  let rs := [gitRepo "" "/srv/a"; gitRepo "b" "/srv/b"] in
  let table := [("", inr [inr 1; inr 2]); ("b", inr [inr 3])] in
  let i := Fixture.driver (Fixture.pool_of rs) false table in
  AddAll rs NewRepositoryPool = Some (Fixture.pool_of rs)
  ∧ Forall2 (λ r rows, behaves (Fixture.Factory table) r (Rows rows))
      rs [[1; 2]; [3]]
  ∧ (∃ i', Next 5 i = Some (i', Err EOF))
  ∧ (consume 5 5 i).1 = ([], Some (Err EOF)).
Proof.
  intros H rs table i. split; [reflexivity|]. split.
  - constructor; [|constructor; [|constructor]].
    + eexists _, _.
      split; [reflexivity|]. split; [reflexivity|].
      eapply produces_cons; [reflexivity|].
      eapply produces_cons; [reflexivity|].
      eapply produces_nil. reflexivity.
    + eexists _, _.
      split; [reflexivity|]. split; [reflexivity|].
      eapply produces_cons; [reflexivity|].
      eapply produces_nil. reflexivity.
  - split; [eexists; reflexivity|reflexivity].
Qed.

Lemma fault_tolerance_skips_failing_repository_witness :
  let H := Fixture.host ["/srv/x"] [] in
  let p := Fixture.pool_of
             [gitRepo "a" "/srv/a"; gitRepo "x" "/srv/x";
              gitRepo "b" "/srv/b"] in
  let i := Fixture.driver p true
             [("a", inr [inr 1; inr 2]); ("b", inr [inr 3])] in
  ∃ i1 i2 fuel, yields i [1; 2; 3] i1 ∧ Next fuel i1 = Some (i2, Err EOF).
Proof.
  intros H p i.
  apply (fault_tolerance_skips_failing_repository
           [gitRepo "a" "/srv/a"] [gitRepo "b" "/srv/b"]
           (gitRepo "x" "/srv/x") [[1; 2]] [[3]] p
           (Fixture.background p true)
           {| Pool := p; SkipGitErrors := true |}
           (Fixture.Factory [("a", inr [inr 1; inr 2]); ("b", inr [inr 3])])
           i).
  - reflexivity.
  - repeat constructor; discriminate.
  - reflexivity.
  - reflexivity.
  - reflexivity.
  - reflexivity.
  - intros n. reflexivity.
  - constructor; [|constructor].
    eexists _, _.
    split; [reflexivity|]. split; [reflexivity|].
    eapply produces_cons; [reflexivity|].
    eapply produces_cons; [reflexivity|].
    eapply produces_nil. reflexivity.
  - left. exists (ErrHost "repository does not exist").
    split; reflexivity.
  - constructor; [|constructor].
    eexists _, _.
    split; [reflexivity|]. split; [reflexivity|].
    eapply produces_cons; [reflexivity|].
    eapply produces_nil. reflexivity.
  - reflexivity.
Defined.

(** C3 as stated fails: in the pool ["x", ""] the backend "x" fails to
    open and the other opens and produces the rows 1 and 2; with fault
    tolerance the failure is passed over, but the next call of the cursor
    answers [io.EOF] for the empty id: no row of the remaining backend is
    returned. *)
Lemma empty_id_hides_remaining_repository :
  let H := Fixture.host ["/srv/x"] [] in
  let rs := [gitRepo "x" "/srv/x"; gitRepo "" "/srv/a"] in
  let table := [("", inr [inr 1; inr 2])] in
  let i := Fixture.driver (Fixture.pool_of rs) true table in
  AddAll rs NewRepositoryPool = Some (Fixture.pool_of rs)
  ∧ behaves (Row := nat) (Fixture.Factory table) (gitRepo "x" "/srv/x")
      OpenFails
  ∧ behaves (Fixture.Factory table) (gitRepo "" "/srv/a") (Rows [1; 2])
  ∧ (consume 5 5 i).1 = ([], Some (Err EOF)).
Proof.
  intros H rs table i. split; [reflexivity|]. split.
  - exists (ErrHost "repository does not exist"). split; reflexivity.
  - split; [|reflexivity].
    eexists _, _.
    split; [reflexivity|]. split; [reflexivity|].
    eapply produces_cons; [reflexivity|].
    eapply produces_cons; [reflexivity|].
    eapply produces_nil. reflexivity.
Qed.

(** * Further properties of the pool *)

Lemma AddMany_app (rs1 rs2 : list repository) (p : RepositoryPool) :
  AddMany (rs1 ++ rs2) p = AddMany rs2 (AddMany rs1 p).
Proof. unfold AddMany. by rewrite fold_left_app. Qed.

Lemma AddMany_cons (r : repository) (rs : list repository)
    (p : RepositoryPool) :
  AddMany (r :: rs) p = AddMany rs (Add r p).1.
Proof. done. Qed.

Lemma Add_wf (r : repository) (p : RepositoryPool) :
  pool_wf p → pool_wf (Add r p).1.
Proof.
  intros (Hnodup & Hlen & Hdom & Hkey). unfold Add.
  destruct (repositories p !! r_ID r) eqn:Hid; simpl; [done|].
  assert (Hfresh : r_ID r ∉ idOrder p).
  { intros [x Hx]%Hdom. congruence. }
  split_and!; simpl.
  - apply NoDup_app. split_and!; [done| |apply NoDup_singleton].
    intros id Hin ->%list_elem_of_singleton. done.
  - rewrite length_app, map_size_insert_None by done. simpl. lia.
  - intros id. rewrite elem_of_app, list_elem_of_singleton, Hdom.
    destruct (decide (r_ID r = id)) as [<-|Hne].
    + rewrite lookup_insert_eq. split; [eauto|auto].
    + rewrite lookup_insert_ne by done. split; [|auto].
      intros [?|?]; [done|congruence].
  - intros id r'. destruct (decide (r_ID r = id)) as [<-|Hne].
    + rewrite lookup_insert_eq. by intros [= <-].
    + rewrite lookup_insert_ne by done. apply Hkey.
Qed.

Lemma AddMany_wf (rs : list repository) :
  ∀ p, pool_wf p → pool_wf (AddMany rs p).
Proof.
  induction rs as [|r rs IH]; intros p Hwf; [done|].
  rewrite AddMany_cons. by apply IH, Add_wf.
Qed.

Lemma AddMany_lookup_mono (rs : list repository) :
  ∀ p id r, repositories p !! id = Some r →
    repositories (AddMany rs p) !! id = Some r.
Proof.
  induction rs as [|r' rs IH]; intros p id r Hr; [done|].
  rewrite AddMany_cons. by apply IH, Add_lookup_mono.
Qed.

Lemma Add_idOrder (r : repository) (p : RepositoryPool) :
  idOrder (Add r p).1 =
    idOrder p ++ match repositories p !! r_ID r with
                 | Some _ => []
                 | None => [r_ID r]
                 end.
Proof.
  unfold Add. destruct (repositories p !! r_ID r); simpl; [|done].
  by rewrite app_nil_r.
Qed.

Lemma AddMany_idOrder (rs : list repository) :
  ∀ p, idOrder p `prefix_of` idOrder (AddMany rs p).
Proof.
  induction rs as [|r rs IH]; intros p; [done|].
  rewrite AddMany_cons. etrans; [|apply IH].
  rewrite Add_idOrder. by apply prefix_app_r.
Qed.

(** What [Add] binds is the backend given, under its id. *)
Lemma Add_lookup_inv (r : repository) (p : RepositoryPool) id r' :
  repositories (Add r p).1 !! id = Some r' →
  repositories p !! id = Some r' ∨ (r' = r ∧ r_ID r = id).
Proof.
  unfold Add. destruct (repositories p !! r_ID r) eqn:Hid; simpl; [auto|].
  destruct (decide (r_ID r = id)) as [<-|Hne].
  - rewrite lookup_insert_eq. intros [= <-]. auto.
  - rewrite lookup_insert_ne by done. auto.
Qed.

Lemma AddMany_lookup_inv (rs : list repository) :
  ∀ p id r, repositories (AddMany rs p) !! id = Some r →
    repositories p !! id = Some r ∨ (r ∈ rs ∧ r_ID r = id).
Proof.
  induction rs as [|r' rs IH]; intros p id r Hr; [auto|].
  rewrite AddMany_cons in Hr. apply IH in Hr as [Hr|[Hin Hid]].
  - apply Add_lookup_inv in Hr as [Hr|[-> Hid]]; [auto|].
    right. split; [left|done].
  - right. split; [by right|done].
Qed.

Lemma AddMany_lookup_elem (rs : list repository) :
  ∀ p r, r ∈ rs → is_Some (repositories (AddMany rs p) !! r_ID r).
Proof.
  induction rs as [|r' rs IH]; intros p r Hin; [by apply elem_of_nil in Hin|].
  rewrite AddMany_cons. apply elem_of_cons in Hin as [->|Hin]; [|by apply IH].
  destruct (Add_lookup_is_Some r' p) as [x Hx].
  exists x. by apply AddMany_lookup_mono.
Qed.

Lemma addSivaFile_pool (root path : string) (f : FileInfo)
    (p : RepositoryPool) :
  (addSivaFile root path f p).1 = AddMany (archives_in path [f]) p.
Proof.
  destruct (strings.HasSuffix (Name f) ".siva") eqn:Hs.
  - rewrite addSivaFile_archive by done. simpl. by rewrite Hs.
  - rewrite addSivaFile_other by done. simpl. by rewrite Hs.
Qed.

Lemma AddSivaFile_pool (id path : string) (p : RepositoryPool) :
  (AddSivaFile id path p).1 = AddMany [sivaRepo id path] p.
Proof. unfold AddSivaFile, AddMany. simpl. by destruct (Add _ p). Qed.

Section PoolOperations.
Context `{Host}.

Lemma AddGitWithID_pool (id path : string) (p : RepositoryPool) :
  (AddGitWithID id path p).1 =
    AddMany (match PlainOpen path with
             | inr _ => [gitRepo id path]
             | inl _ => []
             end) p.
Proof.
  unfold AddGitWithID, AddMany. destruct (PlainOpen path); [done|]. simpl.
  by destruct (Add _ p) as [p' [e|]].
Qed.

Lemma AddDir_fold_pool (prefix : Z) (path : string) (dirs : list FileInfo) :
  ∀ p lg,
    (fold_left (AddDir_entry prefix path) dirs (p, lg)).1 =
      AddMany (AddDir_backends prefix path dirs) p.
Proof.
  induction dirs as [|f dirs IH]; intros p lg; [done|].
  simpl. destruct (IsDir f); simpl; [|apply IH].
  rewrite AddMany_app, <- AddGitWithID_pool.
  destruct (AddGitWithID _ _ p) as [p1 [err|x]]; apply IH.
Qed.

Lemma addSivaDir_loop_flat_pool sub root path (entries : list FileInfo) :
  ∀ p lg,
    (addSivaDir_loop sub root path false entries p lg).1.1 =
      AddMany (archives_in path entries) p.
Proof.
  induction entries as [|f entries IH]; intros p lg; [done|].
  simpl. rewrite andb_false_r.
  pose proof (addSivaFile_pool root path f p) as Hf.
  destruct (addSivaFile root path f p) as [p1 l1]. simpl in Hf.
  rewrite IH, Hf. simpl. by rewrite app_nil_r, <- AddMany_app.
Qed.

Lemma addSivaDir_loop_top_pool root (dirs : list FileInfo) :
  ∀ p lg,
    (addSivaDir_loop (addSivaDir_sub root) root root true dirs p lg).1.1 =
      AddMany (AddSivaDir_backends root dirs) p.
Proof.
  induction dirs as [|e dirs IH]; intros p lg; [done|].
  simpl. rewrite andb_true_r. destruct (IsDir e).
  - destruct (ReadDir (filepath.Join root (Name e))) as [err|sub] eqn:Hsub.
    + by rewrite (addSivaDir_sub_unreadable _ _ err).
    + rewrite (addSivaDir_sub_readable _ _ sub) by done.
      destruct (addSivaDir_loop_flat (λ _ p', (p', [], None)) root
                  (filepath.Join root (Name e)) sub p)
        as (p2 & l2 & Hloop & _).
      pose proof (addSivaDir_loop_flat_pool (λ _ p', (p', [], None)) root
                    (filepath.Join root (Name e)) sub p []) as Hflat.
      rewrite Hloop in Hflat |- *. simpl in Hflat.
      by rewrite IH, AddMany_app, Hflat.
  - pose proof (addSivaFile_pool root root e p) as Hf.
    destruct (addSivaFile root root e p) as [p1 l1]. simpl in Hf.
    rewrite IH, AddMany_app, Hf. done.
Qed.

End PoolOperations.

Section PoolInvariant.
Context `{Host}.

Lemma AddDir_pool (prefix : Z) (path : string) (p : RepositoryPool) :
  (AddDir prefix path p).1.1 =
    AddMany (match ReadDir path with
             | inr dirs => AddDir_backends prefix path dirs
             | inl _ => []
             end) p.
Proof.
  unfold AddDir. destruct (ReadDir path) as [err|dirs]; [done|].
  rewrite <- (AddDir_fold_pool prefix path dirs p []).
  by destruct (fold_left _ dirs (p, [])).
Qed.

Lemma AddSivaDir_pool (root : string) (p : RepositoryPool) :
  (AddSivaDir root p).1.1 =
    AddMany (match ReadDir root with
             | inr dirs => AddSivaDir_backends root dirs
             | inl _ => []
             end) p.
Proof.
  destruct (ReadDir root) as [err|dirs] eqn:Hroot.
  - unfold AddSivaDir, addSivaDir, addSivaDir_with. by rewrite Hroot.
  - rewrite (AddSivaDir_readable _ dirs) by done.
    apply addSivaDir_loop_top_pool.
Qed.

(** Every registration method amounts to a sequence of calls of [Add]. *)
Lemma registers_AddMany (p p' : RepositoryPool) :
  registers p p' → ∃ rs, p' = AddMany rs p.
Proof.
  intros [r p0|path p0|id path p0|prefix path p0|path p0|id path p0].
  - by exists [r].
  - eexists. apply AddGitWithID_pool.
  - eexists. apply AddGitWithID_pool.
  - eexists. apply AddDir_pool.
  - eexists. apply AddSivaDir_pool.
  - eexists. apply AddSivaFile_pool.
Qed.

Lemma NewRepositoryPool_wf : pool_wf NewRepositoryPool.
Proof.
  split_and!; simpl.
  - constructor.
  - by rewrite map_size_empty.
  - intros id. rewrite lookup_empty. split.
    + by intros ?%elem_of_nil.
    + by intros [? ?].
  - intros id r. by rewrite lookup_empty.
Qed.

(** X1: every pool obtained from [NewRepositoryPool] by calls of [Add],
    [AddGit], [AddGitWithID], [AddDir], [AddSivaDir] and [AddSivaFile],
    whatever they return, keeps its two fields in step: [idOrder] has no
    duplicate, as many entries as the mapping, exactly the ids on which the
    mapping is defined, and every backend is filed under its own id. *)
Theorem reachable_pool_wf (p : RepositoryPool) :
  reachable p → pool_wf p.
Proof.
  induction 1 as [|p p' _ IH Hstep]; [apply NewRepositoryPool_wf|].
  apply registers_AddMany in Hstep as [rs ->]. by apply AddMany_wf.
Qed.

Lemma r_Repo_not_Panic (r : repository) : r_Repo r ≠ Panic.
Proof.
  destruct r; simpl;
    unfold NewRepositoryFromPath, NewSivaRepositoryFromPath;
    [destruct (PlainOpen path)|destruct (SivaOpen path)]; done.
Qed.

(** X2: on a reachable pool [GetPos] panics exactly at the negative
    positions; at every other position it returns a repository or an
    error. *)
Theorem GetPos_panics_iff_negative (p : RepositoryPool) (pos : Z) :
  reachable p →
  GetPos pos p = Panic ↔ (pos < 0)%Z.
Proof.
  intros (Hnodup & Hlen & Hdom & Hkey)%reachable_pool_wf.
  unfold GetPos.
  destruct (Z.leb_spec (Z.of_nat (size (repositories p))) pos) as [Hge|Hlt].
  { split; [done|lia]. }
  destruct (Z.ltb_spec pos 0) as [Hneg|Hpos]; [done|].
  split; [|lia]. intros Hpanic. exfalso.
  destruct (idOrder p !! Z.to_nat pos) as [id|] eqn:Hid.
  - destruct (String.eqb id ""); [done|].
    unfold GetRepo in Hpanic.
    destruct (repositories p !! id) as [r|] eqn:Hr; [|done].
    by eapply r_Repo_not_Panic.
  - apply lookup_ge_None in Hid. lia.
Qed.

(** X3: [GetRepo] after [Add].  Once [Add] has returned, the id of the
    backend resolves to a registered backend: the one given when the call
    succeeded, the one registered before when it failed; every other id
    resolves as it did before the call. *)
Theorem GetRepo_after_Add (r : repository) (p : RepositoryPool) :
  (repositories p !! r_ID r = None →
     GetRepo (r_ID r) (Add r p).1 = r_Repo r)
  ∧ (∀ r0, repositories p !! r_ID r = Some r0 →
       GetRepo (r_ID r) (Add r p).1 = r_Repo r0)
  ∧ (∀ id, id ≠ r_ID r → GetRepo id (Add r p).1 = GetRepo id p).
Proof.
  split_and!.
  - intros Hid. rewrite Add_None by done. unfold GetRepo. simpl.
    by rewrite lookup_insert_eq.
  - intros r0 Hid. rewrite (Add_Some _ r0) by done. unfold GetRepo. simpl.
    by rewrite Hid.
  - intros id Hne. unfold GetRepo, Add.
    destruct (repositories p !! r_ID r); simpl; [done|].
    by rewrite lookup_insert_ne.
Qed.

Lemma r_Repo_ID (r : repository) (repo : Repository) :
  r_Repo r = Ok repo → ID repo = r_ID r.
Proof.
  destruct r; simpl;
    unfold NewRepositoryFromPath, NewSivaRepositoryFromPath;
    [destruct (PlainOpen path)|destruct (SivaOpen path)];
    intros Hrepo; by simplify_eq.
Qed.

(** X4: on a reachable pool, [GetRepo] answers [ErrPoolRepoNotFound] for
    every id that is not in [idOrder]; for an id in [idOrder] it returns what
    opening the backend registered under that id returns; and a repository
    it returns carries the id it was asked for. *)
Theorem GetRepo_reachable (p : RepositoryPool) (id : string) :
  reachable p →
  (id ∉ idOrder p → GetRepo id p = Err (ErrPoolRepoNotFound id))
  ∧ (id ∈ idOrder p →
       ∃ r, r_ID r = id ∧ repositories p !! id = Some r
         ∧ GetRepo id p = r_Repo r)
  ∧ (∀ repo, GetRepo id p = Ok repo → ID repo = id).
Proof.
  intros (Hnodup & Hlen & Hdom & Hkey)%reachable_pool_wf.
  unfold GetRepo. destruct (repositories p !! id) as [r|] eqn:Hr.
  - assert (Hin : id ∈ idOrder p) by (apply Hdom; eauto).
    pose proof (Hkey _ _ Hr) as Hid. split_and!; [done| |].
    + intros _. by exists r.
    + intros repo Hrepo. apply r_Repo_ID in Hrepo. congruence.
  - assert (Hout : id ∉ idOrder p).
    { intros [x Hx]%Hdom. congruence. }
    split_and!; [done|done|done].
Qed.

(** X5: [AddGitWithID] registers nothing when no repository opens at the
    path, and then returns [errRepoCannotOpen] with the cause and the
    path; when the repository opens it behaves as [Add] of the plain
    backend: on a fresh id it returns the path (not the id), on a registered
    id the error of [Add], the pool unchanged. *)
Theorem AddGitWithID_cases (id path : string) (p : RepositoryPool) :
  (∀ err, PlainOpen path = inl err →
     AddGitWithID id path p = (p, inl (errRepoCannotOpen err path)))
  ∧ (∀ g, PlainOpen path = inr g →
       repositories p !! id = None →
       AddGitWithID id path p = ((Add (gitRepo id path) p).1, inr path)
       ∧ GetRepo id (AddGitWithID id path p).1 = Ok (NewRepository id g))
  ∧ (∀ g r, PlainOpen path = inr g →
       repositories p !! id = Some r →
       AddGitWithID id path p =
         (p, inl (errRepoAlreadyRegistered (r_Path r)))).
Proof.
  unfold AddGitWithID. split_and!.
  - intros err Hopen. by rewrite Hopen.
  - intros g Hopen Hid. rewrite Hopen.
    rewrite (Add_None (gitRepo id path)) by done. simpl.
    split; [done|]. unfold GetRepo. simpl. rewrite lookup_insert_eq. simpl.
    unfold NewRepositoryFromPath. by rewrite Hopen.
  - intros g r Hopen Hid. rewrite Hopen.
    by rewrite (Add_Some (gitRepo id path) r).
Qed.

End PoolInvariant.

Lemma archives_in_elem (path : string) (entries : list FileInfo)
    (r : repository) :
  r ∈ archives_in path entries →
  ∃ f, f ∈ entries
    ∧ strings.HasSuffix (Name f) ".siva" = true
    ∧ r = sivaRepo (filepath.Join path (Name f)) (filepath.Join path (Name f)).
Proof.
  induction entries as [|f entries IH]; simpl; [by intros ?%elem_of_nil|].
  intros [Hin|Hin]%elem_of_app.
  - destruct (strings.HasSuffix (Name f) ".siva") eqn:Hs;
      [|by apply elem_of_nil in Hin].
    apply list_elem_of_singleton in Hin. exists f. split; [left|done].
  - destruct (IH Hin) as (g & Hg & Hs & Hr). exists g. split; [by right|done].
Qed.

Section ScanEffects.
Context `{Host}.

Lemma AddDir_backends_elem (prefix : Z) (path : string)
    (dirs : list FileInfo) (r : repository) :
  r ∈ AddDir_backends prefix path dirs →
  ∃ f g, f ∈ dirs ∧ IsDir f = true
    ∧ PlainOpen (filepath.Join path (Name f)) = inr g
    ∧ r = gitRepo (IDFromPath prefix (filepath.Join path (Name f)))
                  (filepath.Join path (Name f)).
Proof.
  induction dirs as [|f dirs IH]; simpl; [by intros ?%elem_of_nil|].
  intros [Hin|Hin]%elem_of_app.
  - destruct (IsDir f) eqn:Hdir; [|by apply elem_of_nil in Hin].
    destruct (PlainOpen (filepath.Join path (Name f))) as [err|g] eqn:Hopen;
      [by apply elem_of_nil in Hin|].
    apply list_elem_of_singleton in Hin. exists f, g. split; [left|done].
  - destruct (IH Hin) as (f' & g & Hf & Hrest). exists f', g.
    split; [by right|done].
Qed.

Lemma AddSivaDir_backends_elem (root : string) (dirs part : list FileInfo)
    (r : repository) :
  ReadDir root = inr dirs →
  part ⊆ dirs →
  r ∈ AddSivaDir_backends root part →
  ∃ dir f, discovered root dir f
    ∧ strings.HasSuffix (Name f) ".siva" = true
    ∧ r = sivaRepo (filepath.Join dir (Name f)) (filepath.Join dir (Name f)).
Proof.
  intros Hroot. induction part as [|e part IH]; intros Hsub; simpl;
    [by intros ?%elem_of_nil|].
  assert (He : e ∈ dirs) by (apply Hsub; left).
  assert (Hsub' : part ⊆ dirs) by (intros x Hx; apply Hsub; by right).
  destruct (IsDir e) eqn:Hdir.
  - destruct (ReadDir (filepath.Join root (Name e))) as [err|sub] eqn:Hread;
      [by intros ?%elem_of_nil|].
    intros [Hin|Hin]%elem_of_app; [|by apply IH].
    apply archives_in_elem in Hin as (f & Hf & Hs & ->).
    exists (filepath.Join root (Name e)), f. split; [|done].
    by eapply discovered_sub.
  - intros [Hin|Hin]%elem_of_app; [|by apply IH].
    apply (archives_in_elem root [e]) in Hin
      as (f & Hf%list_elem_of_singleton & Hs & ->).
    subst f. exists root, e. split; [|done]. by eapply discovered_top.
Qed.

(** X6: when the directory cannot be listed [AddDir] returns the error of
    [ReadDir] and leaves the pool as it was, logging nothing.  Otherwise it
    returns no error and the pool it leaves is the pool after [Add] of one
    plain backend per listed directory in which a repository opens, in
    listing order; so whatever it adds to the mapping is such a backend:
    entries that are not directories are never registered. *)
Theorem AddDir_registers_opened_directories (prefix : Z) (path : string)
    (p : RepositoryPool) :
  (∀ err, ReadDir path = inl err → AddDir prefix path p = (p, [], Some err))
  ∧ (∀ dirs, ReadDir path = inr dirs →
       (AddDir prefix path p).2 = None
       ∧ (AddDir prefix path p).1.1 =
           AddMany (AddDir_backends prefix path dirs) p
       ∧ ∀ id r,
           repositories (AddDir prefix path p).1.1 !! id = Some r →
           repositories p !! id = Some r
           ∨ ∃ f g, f ∈ dirs ∧ IsDir f = true
               ∧ PlainOpen (filepath.Join path (Name f)) = inr g
               ∧ id = IDFromPath prefix (filepath.Join path (Name f))
               ∧ r = gitRepo id (filepath.Join path (Name f))).
Proof.
  split.
  - intros err Hread. unfold AddDir. by rewrite Hread.
  - intros dirs Hread.
    pose proof (AddDir_pool prefix path p) as Hpool. rewrite Hread in Hpool.
    split_and!; [|done|].
    + unfold AddDir. rewrite Hread. by destruct (fold_left _ dirs (p, [])).
    + intros id r. rewrite Hpool.
      intros [Hold|[Hin Hid]]%AddMany_lookup_inv; [by left|right].
      apply AddDir_backends_elem in Hin as (f & g & Hf & Hdir & Hopen & ->).
      simpl in Hid. subst id. by exists f, g.
Qed.

(** X7: when the root cannot be listed [AddSivaDir] returns the error of
    [ReadDir] and leaves the pool as it was.  Otherwise, whether the scan
    completes or stops at an unreadable directory, the pool it leaves is the
    pool after [Add] of one archive backend per entry with the suffix met
    before the scan ended, in scan order; so whatever it adds to the mapping
    comes from an entry listed in the root or in a directory of the root,
    named with the suffix, and is filed under its joined path: nothing
    deeper is looked at and no other entry is registered. *)
Theorem AddSivaDir_registers_only_archives (root : string)
    (p : RepositoryPool) :
  (∀ err, ReadDir root = inl err → AddSivaDir root p = (p, [], Some err))
  ∧ (∀ dirs, ReadDir root = inr dirs →
       (AddSivaDir root p).1.1 = AddMany (AddSivaDir_backends root dirs) p
       ∧ ∀ id r,
           repositories (AddSivaDir root p).1.1 !! id = Some r →
           repositories p !! id = Some r
           ∨ ∃ dir f, discovered root dir f
               ∧ strings.HasSuffix (Name f) ".siva" = true
               ∧ id = filepath.Join dir (Name f)
               ∧ r = sivaRepo id id).
Proof.
  split.
  - intros err Hread. unfold AddSivaDir, addSivaDir, addSivaDir_with.
    by rewrite Hread.
  - intros dirs Hread.
    pose proof (AddSivaDir_pool root p) as Hpool. rewrite Hread in Hpool.
    split; [done|]. intros id r. rewrite Hpool.
    intros [Hold|[Hin Hid]]%AddMany_lookup_inv; [by left|right].
    eapply AddSivaDir_backends_elem in Hin as (dir & f & Hfound & Hs & ->);
      [|done|done].
    simpl in Hid. subst id. by exists dir, f.
Qed.

(** X8: registering never disturbs what is registered.  After any
    registration call on a reachable pool, the ids registered before are at
    the same positions of [idOrder], so [GetPos] returns at every position
    that was in range what it returned before, and [GetRepo] resolves every
    id that was registered as before. *)
Theorem registration_keeps_positions (p p' : RepositoryPool) :
  reachable p →
  registers p p' →
  idOrder p `prefix_of` idOrder p'
  ∧ (∀ pos, (0 ≤ pos < Z.of_nat (size (repositories p)))%Z →
       GetPos pos p' = GetPos pos p)
  ∧ (∀ id, id ∈ idOrder p → GetRepo id p' = GetRepo id p).
Proof.
  intros Hreach Hstep.
  assert (Hwf' : pool_wf p') by (apply reachable_pool_wf; by econstructor).
  pose proof (reachable_pool_wf _ Hreach) as (Hnodup & Hlen & Hdom & Hkey).
  destruct Hwf' as (_ & Hlen' & _ & _).
  apply registers_AddMany in Hstep as [rs ->].
  pose proof (AddMany_idOrder rs p) as Hprefix.
  assert (Hrepo : ∀ id, id ∈ idOrder p →
            GetRepo id (AddMany rs p) = GetRepo id p).
  { intros id [r Hr]%Hdom. unfold GetRepo.
    by rewrite (AddMany_lookup_mono rs p id r), Hr. }
  split_and!; [done| |done].
  intros pos [Hpos0 Hpos]. unfold GetPos.
  pose proof (prefix_length _ _ Hprefix) as Hle.
  destruct (Z.leb_spec (Z.of_nat (size (repositories (AddMany rs p)))) pos);
    [lia|].
  destruct (Z.leb_spec (Z.of_nat (size (repositories p))) pos); [lia|].
  destruct (Z.ltb_spec pos 0); [lia|].
  rewrite <- (prefix_lookup_lt (idOrder p) (idOrder (AddMany rs p)))
    by (done || lia).
  destruct (idOrder p !! Z.to_nat pos) as [id|] eqn:Hid; [|done].
  destruct (String.eqb id ""); [done|].
  apply Hrepo. by eapply list_elem_of_lookup_2.
Qed.

End ScanEffects.

Lemma reachable_pool_wf_witness :
  let H := Fixture.host ["repos/bad"]
    [("repos", [Fixture.dir "bad"; Fixture.dir "good"; Fixture.file "README"]);
     ("root", [Fixture.file "r1.siva"; Fixture.dir "sub"]);
     ("root/sub", [Fixture.file "r2.siva"])] in
  pool_wf (AddSivaDir "root" (AddDir 0 "repos" NewRepositoryPool).1.1).1.1
  ∧ idOrder (AddSivaDir "root" (AddDir 0 "repos" NewRepositoryPool).1.1).1.1
    = ["good"; "root/r1.siva"; "root/sub/r2.siva"].
Proof.
  intros H. split; [|reflexivity].
  apply reachable_pool_wf.
  eapply reachable_step;
    [eapply reachable_step; [apply reachable_new|apply registers_AddDir]
    |apply registers_AddSivaDir].
Defined.

Lemma GetPos_panics_iff_negative_witness :
  let H := Fixture.host [] [] in
  GetPos (-1) (Add (gitRepo "a" "/srv/a") NewRepositoryPool).1 = Panic.
Proof.
  intros H. apply GetPos_panics_iff_negative; [|reflexivity].
  eapply reachable_step; [apply reachable_new|apply registers_Add].
Defined.

Lemma GetRepo_reachable_witness :
  let H := Fixture.host [] [] in
  let p := (Add (sivaRepo "a" "/srv/a.siva") NewRepositoryPool).1 in
  GetRepo "b" p = Err (ErrPoolRepoNotFound "b")
  ∧ ∃ r, r_ID r = "a" ∧ repositories p !! "a" = Some r
      ∧ GetRepo "a" p = r_Repo r.
Proof.
  intros H p.
  assert (Hreach : reachable p).
  { eapply reachable_step; [apply reachable_new|apply registers_Add]. }
  split.
  - apply (GetRepo_reachable p "b" Hreach).
    intros Hin. apply list_elem_of_singleton in Hin. discriminate Hin.
  - apply (GetRepo_reachable p "a" Hreach). left.
Defined.

Lemma registration_keeps_positions_witness :
  let H := Fixture.host [] [("root", [Fixture.file "r1.siva"])] in
  let p := (Add (gitRepo "a" "/srv/a") NewRepositoryPool).1 in
  GetPos 0 (AddSivaDir "root" p).1.1 = GetPos 0 p
  ∧ idOrder (AddSivaDir "root" p).1.1 = ["a"; "root/r1.siva"].
Proof.
  intros H p. split; [|reflexivity].
  assert (Hreach : reachable p).
  { eapply reachable_step; [apply reachable_new|apply registers_Add]. }
  destruct (registration_keeps_positions p (AddSivaDir "root" p).1.1 Hreach
              (registers_AddSivaDir "root" p)) as (_ & Hpos & _).
  apply Hpos. split; [lia|]. vm_compute. reflexivity.
Defined.

Lemma AddDir_registers_opened_directories_witness :
  let H := Fixture.host ["repos/bad"]
    [("repos", [Fixture.dir "bad"; Fixture.dir "good"; Fixture.file "README"])] in
  AddDir 0 "nowhere" NewRepositoryPool =
    (NewRepositoryPool, [], Some (ErrHost "no such directory"))
  ∧ (AddDir 0 "repos" NewRepositoryPool).1.1 =
      AddMany [gitRepo "good" "repos/good"] NewRepositoryPool.
Proof.
  intros H. split.
  - apply (proj1 (AddDir_registers_opened_directories 0 "nowhere"
                    NewRepositoryPool)). reflexivity.
  - destruct (proj2 (AddDir_registers_opened_directories 0 "repos"
                       NewRepositoryPool)
                [Fixture.dir "bad"; Fixture.dir "good"; Fixture.file "README"])
      as (_ & Hpool & _); [reflexivity|].
    exact Hpool.
Defined.

Lemma AddSivaDir_registers_only_archives_witness :
  let H := Fixture.host []
    [("root", [Fixture.file "r1.siva"; Fixture.dir "locked";
               Fixture.file "r2.siva"])] in
  (AddSivaDir "root" NewRepositoryPool).1.1 =
    AddMany [sivaRepo "root/r1.siva" "root/r1.siva"] NewRepositoryPool.
Proof.
  intros H.
  destruct (proj2 (AddSivaDir_registers_only_archives "root"
                     NewRepositoryPool)
              [Fixture.file "r1.siva"; Fixture.dir "locked";
               Fixture.file "r2.siva"]) as [Hpool _]; [reflexivity|].
  exact Hpool.
Defined.

(** * Further properties of the cursor and of the composite iterator *)

Section CursorProperties.
Context `{Host}.

Lemma RepositoryIter_Next_Ok_or_Err (i : RepositoryIter) (r : result Repository) :
  GetPos (pos i) (pool i) = r →
  r ≠ Panic →
  RepositoryIter_Next i = ({| pos := wrap32 (pos i + 1); pool := pool i |}, r).
Proof.
  intros Hget Hr. unfold RepositoryIter_Next. rewrite Hget.
  by destruct r.
Qed.

Lemma RepositoryIter_take_from (rs : list repository) (p : RepositoryPool) :
  AddAll rs NewRepositoryPool = Some p →
  Forall (λ r, r_ID r ≠ "") rs →
  (Z.of_nat (length rs) < 2 ^ 31)%Z →
  ∀ rs' (k : nat),
    drop k rs = rs' →
    (k ≤ length rs)%nat →
    RepositoryIter_take (length rs') {| pos := Z.of_nat k; pool := p |} =
      (r_Repo <$> rs', {| pos := Z.of_nat (k + length rs'); pool := p |}).
Proof.
  intros Hall Hne Hsize. induction rs' as [|r rs' IH]; intros k Hdrop Hk.
  - simpl. by rewrite Nat.add_0_r.
  - assert (Hr : rs !! k = Some r).
    { rewrite <- (Nat.add_0_r k), <- lookup_drop, Hdrop. done. }
    assert (Hlt : (k < length rs)%nat) by by eapply lookup_lt_Some.
    assert (Hdrop' : drop (S k) rs = rs').
    { replace (S k) with (k + 1)%nat by lia.
      rewrite <- drop_drop, Hdrop. done. }
    cbn [RepositoryIter_take length].
    rewrite (RepositoryIter_Next_Ok_or_Err _ (r_Repo r)).
    + simpl. rewrite wrap32_succ by lia.
      replace (Z.of_nat k + 1)%Z with (Z.of_nat (S k)) by lia.
      rewrite (IH (S k)) by (done || lia).
      replace (S k + length rs')%nat with (k + S (length rs'))%nat by lia.
      done.
    + simpl. by eapply GetPos_AddAll.
    + apply r_Repo_not_Panic.
Qed.

(** X9: the cursor enumerates the pool.  Over a pool built by N successful
    registrations (N below 2^31, no empty id), N calls of
    [RepositoryIter.Next] on a new cursor return, in registration order, what
    opening each backend returns: a backend that fails to open yields its
    error and the cursor moves on all the same; the call after those returns
    [io.EOF]. *)
Theorem RepositoryIter_enumerates (rs : list repository)
    (p : RepositoryPool) :
  AddAll rs NewRepositoryPool = Some p →
  Forall (λ r, r_ID r ≠ "") rs →
  (Z.of_nat (length rs) < 2 ^ 31)%Z →
  RepositoryIter_take (length rs) (RepoIter p) =
    (r_Repo <$> rs, {| pos := Z.of_nat (length rs); pool := p |})
  ∧ (RepositoryIter_Next {| pos := Z.of_nat (length rs); pool := p |}).2 =
      Err EOF.
Proof.
  intros Hall Hne Hsize. split.
  - apply (RepositoryIter_take_from rs p Hall Hne Hsize rs 0%nat); [done|lia].
  - unfold RepositoryIter_Next. simpl.
    by rewrite (GetPos_AddAll_length rs).
Qed.

End CursorProperties.

Lemma RepositoryIter_enumerates_witness :
  let H := Fixture.host ["/srv/x"] [] in
  let p := Fixture.pool_of
             [gitRepo "a" "/srv/a"; gitRepo "x" "/srv/x";
              sivaRepo "b" "/srv/b.siva"] in
  (RepositoryIter_take 3 (RepoIter p)).1 =
    [Ok (NewRepository "a" "/srv/a");
     Err (ErrHost "repository does not exist");
     Ok (NewRepository "b" "/srv/b.siva")].
Proof.
  intros H p.
  destruct (RepositoryIter_enumerates
              [gitRepo "a" "/srv/a"; gitRepo "x" "/srv/x";
               sivaRepo "b" "/srv/b.siva"] p) as [Htake _].
  - reflexivity.
  - repeat constructor; discriminate.
  - reflexivity.
  - change (RepositoryIter_take 3 (RepoIter p)).1 with
      (RepositoryIter_take
         (length [gitRepo "a" "/srv/a"; gitRepo "x" "/srv/x";
                  sivaRepo "b" "/srv/b.siva"]) (RepoIter p)).1.
    rewrite Htake. reflexivity.
Defined.

Section NextInGeneral.
Context `{Host} {Row I : Type} `{!RowRepoIter Row I}.
Implicit Types (i j : rowRepoIter (I := I)) (it : I).

Lemma closed_app (tr1 tr2 : list (event (I := I))) :
  closed (tr1 ++ tr2) = closed tr1 ++ closed tr2.
Proof.
  induction tr1 as [|e tr1 IH]; [done|].
  destruct e; simpl; by rewrite IH.
Qed.

Local Ltac split_loop_body :=
  repeat match goal with
         | |- context [GetPos ?a ?b] => destruct (GetPos a b) eqn:?; simpl
         | |- context [match ?x with _ => _ end] => destruct x eqn:?; simpl
         end.

(** What an iteration leaves alone: the context, the session, the factory
    and the pool of the cursor; the signal is polled once. *)
Lemma loop_body_frame i :
  ctx (loop_body i).1 = ctx i
  ∧ session (loop_body i).1 = session i
  ∧ iter (loop_body i).1 = iter i
  ∧ polls (loop_body i).1 = S (polls i)
  ∧ pool (repositoryIter (loop_body i).1) = pool (repositoryIter i).
Proof.
  unfold loop_body, next_row, RepositoryIter_Next. simpl.
  split_loop_body; simpl; done.
Qed.

(** What an iteration does: it only adds to the trace; it closes a
    sub-iterator only after that sub-iterator has returned [io.EOF]; it
    returns a row only when a sub-iterator has returned that row, and that
    sub-iterator is then the active one; with fault tolerance the only
    errors it returns are [io.EOF] and [ErrSessionCanceled]. *)
Lemma loop_body_effects i i' (c : control Row) :
  loop_body i = (i', c) →
  ∃ evs, trace i' = trace i ++ evs
    ∧ (∀ it', it' ∈ closed evs → ∃ it, sub_Next it = (it', inl EOF))
    ∧ (∀ row, c = Return row →
         ∃ it it', sub_Next it = (it', inr row) ∧ currRepoIter i' = Some it')
    ∧ (∀ e, c = ReturnErr e → SkipGitErrors (session i) = true →
         e = EOF ∨ e = ErrSessionCanceled).
Proof.
  unfold loop_body, next_row, RepositoryIter_Next. simpl.
  split_loop_body; intros [= <- <-]; simpl;
    rewrite <- ?app_assoc; simpl;
    (eexists; split; [first [reflexivity|symmetry; apply app_nil_r]|]);
    simpl;
    (split_and!;
     [intros ? Hin; simpl in Hin;
      repeat match goal with
             | Hin : _ ∈ _ :: _ |- _ => apply elem_of_cons in Hin as [->|Hin]
             | Hin : _ ∈ [] |- _ => by apply elem_of_nil in Hin
             end;
      match goal with
      | He : is_EOF ?e = true |- _ => destruct e; try discriminate He
      end; eauto
     |intros ? [= <-]; eauto
     |intros ? [= <-] ?; auto; congruence]).
Qed.


Lemma Next_effects (fuel : nat) :
  ∀ i i' (r : result Row),
    Next fuel i = Some (i', r) →
    ∃ evs, trace i' = trace i ++ evs
      ∧ (∀ it', it' ∈ closed evs → ∃ it, sub_Next it = (it', inl EOF))
      ∧ (∀ row, r = Ok row →
           ∃ it it', sub_Next it = (it', inr row) ∧ currRepoIter i' = Some it')
      ∧ (∀ e, r = Err e → SkipGitErrors (session i) = true →
           e = EOF ∨ e = ErrSessionCanceled).
Proof.
  induction fuel as [|fuel IH]; intros i i' r Hnext; [done|].
  simpl in Hnext.
  destruct (loop_body i) as [i1 c] eqn:Hbody.
  pose proof (loop_body_frame i) as (_ & Hses & _). rewrite Hbody in Hses.
  simpl in Hses.
  destruct (loop_body_effects _ _ _ Hbody) as (evs & Htrace & Hclosed & Hrow & Herr).
  destruct c as [|row|err|].
  - destruct (IH _ _ _ Hnext) as (evs' & Htrace' & Hclosed' & Hrow' & Herr').
    exists (evs ++ evs'). split_and!.
    + by rewrite Htrace', Htrace, app_assoc.
    + intros it'. rewrite closed_app. intros [?|?]%elem_of_app; eauto.
    + done.
    + intros e He Hskip. apply Herr'; [done|]. by rewrite Hses.
  - injection Hnext as <- <-. exists evs. split_and!; [done|done| |done].
    intros row' [= <-]. by apply Hrow.
  - injection Hnext as <- <-. exists evs. split_and!; [done|done|done|].
    intros e [= <-]. by apply Herr.
  - injection Hnext as <- <-. exists evs. split_and!; done.
Qed.

(** X10: a call of [Next] that returns has only added to the trace, and
    every sub-iterator it has called [Close] on had returned [io.EOF]:
    [Next] never closes a sub-iterator that still has rows or that failed. *)
Theorem Next_closes_only_exhausted i i' (r : result Row) (fuel : nat) :
  Next fuel i = Some (i', r) →
  ∃ evs, trace i' = trace i ++ evs
    ∧ ∀ it', it' ∈ closed evs → ∃ it, sub_Next it = (it', inl EOF).
Proof.
  intros (evs & Htrace & Hclosed & _)%Next_effects. by exists evs.
Qed.

(** X11: with fault tolerance, whatever the pool, the factory and the
    sub-iterators do, the only errors [Next] returns are [io.EOF] and
    [ErrSessionCanceled]. *)
Theorem fault_tolerance_hides_errors i i' (e : error) (fuel : nat) :
  SkipGitErrors (session i) = true →
  Next fuel i = Some (i', Err e) →
  e = EOF ∨ e = ErrSessionCanceled.
Proof.
  intros Hskip (evs & _ & _ & _ & Herr)%Next_effects. by apply Herr.
Qed.

(** X12: a row returned by [Next] is a row some sub-iterator has just
    returned, and that sub-iterator is the active one afterwards. *)
Theorem Next_row_from_sub_iterator i i' (row : Row) (fuel : nat) :
  Next fuel i = Some (i', Ok row) →
  ∃ it it', sub_Next it = (it', inr row) ∧ currRepoIter i' = Some it'.
Proof.
  intros (evs & _ & _ & Hrow & _)%Next_effects. by apply Hrow.
Qed.

(** X13: cancellation bounds a call of [Next].  If the signal is set at
    the [k]-th poll from now, [Next] returns within [k + 1] iterations,
    whatever the state and whatever the collaborators do. *)
Theorem cancellation_bounds_Next (k : nat) :
  ∀ i, Done (ctx i) (polls i + k) = true → is_Some (Next (S k) i).
Proof.
  induction k as [|k IH]; intros i Hdone.
  - rewrite Nat.add_0_r in Hdone. simpl.
    rewrite loop_body_canceled by done. eauto.
  - cbn [Next]. destruct (loop_body i) as [i1 c] eqn:Hbody.
    destruct c; eauto.
    apply IH.
    pose proof (loop_body_frame i) as (Hctx & _ & _ & Hpolls & _).
    rewrite Hbody in Hctx, Hpolls. simpl in Hctx, Hpolls.
    rewrite Hctx, Hpolls. by replace (S (polls i) + k) with (polls i + S k) by lia.
Qed.

(** X14: with fault tolerance, an active sub-iterator whose [Next] keeps
    failing with errors other than [io.EOF] is retried for ever: as long as
    the context is not canceled, [Next] does not return, whatever the number
    of iterations. *)
Theorem tolerated_errors_retry_for_ever (P : I → Prop) (fuel : nat) :
  (∀ it, P it →
     ∃ it' err, sub_Next it = (it', inl err) ∧ is_EOF err = false ∧ P it') →
  ∀ i it,
    P it →
    currRepoIter i = Some it →
    SkipGitErrors (session i) = true →
    (∀ n, Done (ctx i) n = false) →
    Next fuel i = None.
Proof.
  intros Hfail. induction fuel as [|fuel IH]; intros i it HP Hcur Hskip Hdone;
    [done|].
  destruct (Hfail it HP) as (it' & err & Hnext & Herr & HP').
  simpl. rewrite (loop_body_active _ it) by done.
  rewrite (next_row_error _ it it' err) by done. simpl. rewrite Hskip.
  by apply (IH _ it').
Qed.

End NextInGeneral.

Lemma Next_closes_only_exhausted_witness :
  let H := Fixture.host [] [] in
  let i := Fixture.active false (λ _, false) [] in
  ∃ i' r evs, Next 5 i = Some (i', r)
    ∧ trace i' = trace i ++ evs
    ∧ ∀ it', it' ∈ closed evs →
        ∃ it, sub_Next (Row := nat) it = (it', inl EOF).
Proof.
  intros H i.
  destruct (Next 5 i) as [[i' r]|] eqn:Hnext; [|discriminate Hnext].
  destruct (Next_closes_only_exhausted i i' r 5 Hnext) as (evs & Htrace & Hcl).
  exists i', r, evs. split; [reflexivity|]. split; [exact Htrace|exact Hcl].
Defined.

Lemma fault_tolerance_hides_errors_witness :
  let H := Fixture.host ["/srv/x"] [] in
  let i := Fixture.driver (Fixture.pool_of [gitRepo "x" "/srv/x"]) true [] in
  ∃ i', Next 5 i = Some (i', Err EOF).
Proof.
  intros H i.
  destruct (Next 5 i) as [[i' [row|e|]]|] eqn:Hnext;
    try discriminate Hnext.
  destruct (fault_tolerance_hides_errors i i' e 5 eq_refl Hnext) as [->| ->].
  - exists i'. reflexivity.
  - vm_compute in Hnext. discriminate Hnext.
Defined.

Lemma Next_row_from_sub_iterator_witness :
  let H := Fixture.host [] [] in
  let i := Fixture.active false (λ _, false) [inr 4; inr 5] in
  ∃ i' it it', Next 1 i = Some (i', Ok 4)
    ∧ sub_Next it = (it', inr 4) ∧ currRepoIter i' = Some it'.
Proof.
  intros H i.
  destruct (Next 1 i) as [[i' r]|] eqn:Hnext; [|discriminate Hnext].
  assert (Hr : r = Ok 4) by (vm_compute in Hnext; congruence).
  subst r.
  destruct (Next_row_from_sub_iterator i i' 4 1 Hnext) as (it & it' & Hsub & Hcur).
  exists i', it, it'. split; [reflexivity|]. split; [exact Hsub|exact Hcur].
Defined.

Lemma cancellation_bounds_Next_witness :
  let H := Fixture.host [] [] in
  let s := {| Pool := NewRepositoryPool; SkipGitErrors := true |} in
  let i : rowRepoIter (I := Broken.broken) :=
    {| currRepoIter := Some (Broken.Failing 0);
       repositoryIter := RepoIter NewRepositoryPool;
       iter := Broken.Failing 0; session := s;
       ctx := {| ctx_Session := Some s; Done n := Nat.eqb n 7 |};
       polls := 0; trace := [] |} in
  is_Some (Next 8 i).
Proof.
  intros H s i. apply (cancellation_bounds_Next 7 i). reflexivity.
Defined.

Lemma tolerated_errors_retry_for_ever_witness :
  let H := Fixture.host [] [] in
  let s := {| Pool := NewRepositoryPool; SkipGitErrors := true |} in
  let i : rowRepoIter (I := Broken.broken) :=
    {| currRepoIter := Some (Broken.Failing 0);
       repositoryIter := RepoIter NewRepositoryPool;
       iter := Broken.Failing 0; session := s;
       ctx := {| ctx_Session := Some s; Done _ := false |};
       polls := 0; trace := [] |} in
  Next 1000 i = None.
Proof.
  intros H s i.
  apply (tolerated_errors_retry_for_ever (λ _, True) 1000) with
    (it := Broken.Failing 0).
  - intros [n] _. exists (Broken.Failing (S n)), (ErrHost "disk").
    split; [reflexivity|]. split; [reflexivity|exact Logic.I].
  - exact Logic.I.
  - reflexivity.
  - reflexivity.
  - intros n. reflexivity.
Defined.

Section Segments.
Context `{Host} {Row I : Type} `{!RowRepoIter Row I}.
Implicit Types (i j : rowRepoIter (I := I)) (it : I).

Variables (rs : list repository) (p : RepositoryPool) (f : I).
Hypothesis Hall : AddAll rs NewRepositoryPool = Some p.
Hypothesis Hne : Forall (λ r, r_ID r ≠ "") rs.
Hypothesis Hsize : (Z.of_nat (length rs) < 2 ^ 31)%Z.

Lemma pulled_one_at i (k : nat) :
  (k < length rs)%nat →
  repositoryIter i = {| pos := Z.of_nat k; pool := p |} →
  pulled_one i =
    set_repositoryIter {| pos := Z.of_nat (S k); pool := p |}
      (record (EvRepositoryNext (Z.of_nat k)) (poll i)).
Proof.
  intros Hk Hpos. unfold pulled_one. rewrite Hpos. simpl.
  rewrite wrap32_succ by lia. do 2 f_equal. lia.
Qed.

(** The iterations spent on the backend at position [k]. *)
Lemma run_one (r : repository) (b : behaviour (Row := Row)) i (k : nat) :
  rs !! k = Some r →
  behaves f r b →
  currRepoIter i = None →
  repositoryIter i = {| pos := Z.of_nat k; pool := p |} →
  iter i = f →
  (∀ n, Done (ctx i) n = false) →
  SkipGitErrors (session i) = true ∨ is_Rows b →
  ∃ i1, run i (rows_of b) i1
    ∧ currRepoIter i1 = None
    ∧ repositoryIter i1 = {| pos := Z.of_nat (S k); pool := p |}
    ∧ iter i1 = f ∧ session i1 = session i ∧ ctx i1 = ctx i.
Proof.
  intros Hr Hb Hcur Hpos Hit Hdone Hskip.
  assert (Hlt : (k < length rs)%nat) by by eapply lookup_lt_Some.
  assert (Hget : GetPos (pos (repositoryIter i)) (pool (repositoryIter i))
                 = r_Repo r).
  { rewrite Hpos. simpl. by eapply GetPos_AddAll. }
  pose proof (pulled_one_at i k Hlt Hpos) as Hnextpos.
  destruct b as [rows| |]; simpl in Hb.
  - destruct Hb as (repo & it & Hopen & Hnew & Hprod).
    rewrite Hopen in Hget. rewrite <- Hit in Hnew.
    pose proof (loop_body_pull_new i repo (Some it) (Hdone _) Hcur Hget Hnew)
      as Hbody.
    set (j := set_currRepoIter (Some it)
                (record (EvNewIterator (ID repo)) (pulled_one i))) in Hbody.
    destruct (run_active it rows Hprod i j)
      as (i1 & Hrun1 & Hcur1 & Hpos1 & Hit1 & Hs1 & Hc1 & _);
      [done|intros n; apply Hdone|done|].
    exists i1. split_and!; [done|done| |by rewrite Hit1|exact Hs1|exact Hc1].
    rewrite Hpos1. unfold j. by rewrite Hnextpos.
  - destruct Hb as (err & Hopen & Herr).
    destruct Hskip as [Hskip|[]].
    rewrite Hopen in Hget.
    pose proof (loop_body_pull_error i err (Hdone _) Hcur Hget) as Hbody.
    rewrite Herr, Hskip in Hbody.
    rewrite Hnextpos in Hbody. eexists.
    split; [eapply run_continue; [done|constructor]|]. done.
  - destruct Hb as (repo & err & Hopen & Hnew).
    destruct Hskip as [Hskip|[]].
    rewrite Hopen in Hget. rewrite <- Hit in Hnew.
    pose proof (loop_body_pull_new_error i repo None err (Hdone _) Hcur
                  Hget Hnew) as Hbody.
    rewrite Hskip in Hbody.
    rewrite Hnextpos in Hbody. eexists.
    split; [eapply run_continue; [done|constructor]|]. done.
Qed.

(** The iterations spent on a stretch [mid] of the pool. *)
Lemma run_segment (mid : list repository)
    (bs : list (behaviour (Row := Row))) :
  Forall2 (behaves f) mid bs →
  ∀ pre post i,
    rs = pre ++ mid ++ post →
    currRepoIter i = None →
    repositoryIter i = {| pos := Z.of_nat (length pre); pool := p |} →
    iter i = f →
    (∀ n, Done (ctx i) n = false) →
    SkipGitErrors (session i) = true ∨ Forall is_Rows bs →
    ∃ i', run i (concat (rows_of <$> bs)) i'
      ∧ currRepoIter i' = None
      ∧ repositoryIter i' =
          {| pos := Z.of_nat (length pre + length mid); pool := p |}
      ∧ iter i' = f ∧ session i' = session i ∧ ctx i' = ctx i.
Proof.
  induction 1 as [|r b mid bs Hb _ IH];
    intros pre post i Hrs Hcur Hpos Hit Hdone Hskip.
  - exists i. simpl. rewrite Nat.add_0_r. split_and!; try done. constructor.
  - assert (Hr : rs !! length pre = Some r).
    { rewrite Hrs, lookup_app_r by lia. by rewrite Nat.sub_diag. }
    destruct (run_one r b i (length pre))
      as (i1 & Hrun1 & Hcur1 & Hpos1 & Hit1 & Hs1 & Hc1); try done.
    { destruct Hskip as [?|Hrows]; [by left|right].
      by apply Forall_cons in Hrows as [? _]. }
    destruct (IH (pre ++ [r]) post i1)
      as (i' & Hrun & Hcur' & Hpos' & Hit' & Hs' & Hc'); try done.
    + by rewrite Hrs, <- app_assoc.
    + rewrite Hpos1, length_app. simpl. do 2 f_equal. lia.
    + intros n. rewrite Hc1. apply Hdone.
    + rewrite Hs1. destruct Hskip as [?|Hrows]; [by left|right].
      by apply Forall_cons in Hrows as [_ ?].
    + exists i'. rewrite fmap_cons. simpl.
      split_and!; [by eapply run_app|done| |done|congruence|congruence].
      rewrite Hpos', length_app. simpl. do 2 f_equal. lia.
Qed.

End Segments.

Section WithoutTolerance.
Context `{Host} {Row I : Type} `{!RowRepoIter Row I}.
Implicit Types (i j : rowRepoIter (I := I)) (it : I).

(** X15: without fault tolerance, over a pool of fewer than 2^31 backends
    with non-empty ids, never canceled, when one backend fails to open or
    has [NewIterator] fail (returning no iterator): the calls of [Next]
    return the rows of the backends registered before it, then its error;
    the cursor has already moved past it, so further calls return the rows
    of the backends registered after it, then [io.EOF]: it is the caller who
    stops at the error, not the iterator. *)
Theorem failure_surfaces_then_iteration_resumes
    (rs1 rs2 : list repository) (bad : repository)
    (rowss1 rowss2 : list (list Row)) (p : RepositoryPool) (c : Context)
    (s : Session) (f : I) (err : error) i0 :
  AddAll (rs1 ++ bad :: rs2) NewRepositoryPool = Some p →
  Forall (λ r, r_ID r ≠ "") (rs1 ++ bad :: rs2) →
  (Z.of_nat (length (rs1 ++ bad :: rs2)) < 2 ^ 31)%Z →
  ctx_Session c = Some s →
  Pool s = p →
  SkipGitErrors s = false →
  (∀ n, Done c n = false) →
  Forall2 (λ r rows, behaves f r (Rows rows)) rs1 rowss1 →
  (r_Repo bad = Err err ∧ is_EOF err = false)
  ∨ (∃ repo, r_Repo bad = Ok repo ∧ NewIterator f repo = (None, Some err)) →
  Forall2 (λ r rows, behaves f r (Rows rows)) rs2 rowss2 →
  NewRowRepoIter c f = Ok i0 →
  ∃ i1 i2 i3 i4 fuel1 fuel2,
    yields i0 (concat rowss1) i1
    ∧ Next fuel1 i1 = Some (i2, Err err)
    ∧ yields i2 (concat rowss2) i3
    ∧ Next fuel2 i3 = Some (i4, Err EOF).
Proof.
  intros Hall Hne Hsize Hs Hp Hskip Hdone Hrows1 Hbad Hrows2 Hnew.
  unfold NewRowRepoIter in Hnew. rewrite Hs in Hnew. injection Hnew as <-.
  set (rs := rs1 ++ bad :: rs2) in *.
  set (i0 := {| currRepoIter := None; repositoryIter := RepoIter (Pool s);
                iter := f; session := s; ctx := c; polls := 0;
                trace := [] |}).
  destruct (run_segment rs p f Hall Hne Hsize rs1 (Rows <$> rowss1)
              (Forall2_behaves_Rows _ _ _ Hrows1) [] (bad :: rs2) i0)
    as (ia & Hrun1 & Hcur1 & Hpos1 & Hit1 & Hs1 & Hc1);
    [done|done|by rewrite <- Hp|done|done|right; apply Forall_is_Rows|].
  simpl in Hpos1, Hs1, Hc1. rewrite concat_rows_of_Rows in Hrun1.
  assert (Hbadpos : rs !! length rs1 = Some bad).
  { unfold rs. rewrite lookup_app_r by lia. by rewrite Nat.sub_diag. }
  assert (Hlt : (length rs1 < length rs)%nat) by by eapply lookup_lt_Some.
  assert (Hget : GetPos (pos (repositoryIter ia)) (pool (repositoryIter ia))
                 = r_Repo bad).
  { rewrite Hpos1. simpl. by eapply GetPos_AddAll. }
  assert (Hdonea : ∀ n, Done (ctx ia) n = false).
  { intros n. rewrite Hc1. apply Hdone. }
  assert (Hskipa : SkipGitErrors (session ia) = false) by by rewrite Hs1.
  pose proof (pulled_one_at rs p Hsize ia (length rs1) Hlt Hpos1) as Hnextpos.
  assert (∃ ib, loop_body ia = (ib, ReturnErr err)
            ∧ currRepoIter ib = None
            ∧ repositoryIter ib =
                {| pos := Z.of_nat (length (rs1 ++ [bad])); pool := p |}
            ∧ iter ib = f ∧ session ib = session ia ∧ ctx ib = ctx ia)
    as (ib & Hbody & Hcurb & Hposb & Hitb & Hsb & Hcb).
  { rewrite length_app. simpl. rewrite Nat.add_1_r.
    destruct Hbad as [[Hopen Herr]|(repo & Hopen & Hfail)].
    - rewrite Hopen in Hget.
      pose proof (loop_body_pull_error ia err (Hdonea _) Hcur1 Hget) as Hbody.
      rewrite Herr, Hskipa, Hnextpos in Hbody. eexists. split; [done|]. done.
    - rewrite Hopen in Hget. rewrite <- Hit1 in Hfail.
      pose proof (loop_body_pull_new_error ia repo None err (Hdonea _) Hcur1
                    Hget Hfail) as Hbody.
      rewrite Hskipa, Hnextpos in Hbody. eexists. split; [done|]. done. }
  assert (Hfirst : Next 1 ia = Some (ib, Err err)).
  { simpl. by rewrite Hbody. }
  destruct (run_yields _ _ _ Hrun1 _ _ _ Hfirst) as (i1 & fuel1 & Hy1 & Hend1).
  destruct (run_segment rs p f Hall Hne Hsize rs2 (Rows <$> rowss2)
              (Forall2_behaves_Rows _ _ _ Hrows2) (rs1 ++ [bad]) [] ib)
    as (ic & Hrun2 & Hcur2 & Hpos2 & Hit2 & Hs2 & Hc2); try done.
  { unfold rs. by rewrite app_nil_r, <- app_assoc. }
  { intros n. rewrite Hcb. apply Hdonea. }
  { right. apply Forall_is_Rows. }
  rewrite concat_rows_of_Rows in Hrun2.
  assert (Hlast : Next 1 ic = Some (pulled_one ic, Err EOF)).
  { simpl. rewrite (loop_body_pull_error ic EOF); [done| |done|].
    - rewrite Hc2, Hcb. apply Hdonea.
    - rewrite Hpos2. simpl.
      replace (length (rs1 ++ [bad]) + length rs2)%nat with (length rs)
        by (unfold rs; rewrite !length_app; simpl; lia).
      by apply GetPos_AddAll_length. }
  destruct (run_yields _ _ _ Hrun2 _ _ _ Hlast) as (i3 & fuel2 & Hy2 & Hend2).
  by exists i1, ib, i3, (pulled_one ic), fuel1, fuel2.
Qed.

End WithoutTolerance.

Lemma failure_surfaces_then_iteration_resumes_witness :
  let H := Fixture.host ["/srv/x"] [] in
  let p := Fixture.pool_of
             [gitRepo "a" "/srv/a"; gitRepo "x" "/srv/x";
              gitRepo "b" "/srv/b"] in
  let i := Fixture.driver p false
             [("a", inr [inr 1; inr 2]); ("b", inr [inr 3])] in
  ∃ i1 i2 i3 i4 fuel1 fuel2,
    yields i [1; 2] i1
    ∧ Next fuel1 i1 = Some (i2, Err (ErrHost "repository does not exist"))
    ∧ yields i2 [3] i3
    ∧ Next fuel2 i3 = Some (i4, Err EOF).
Proof.
  intros H p i.
  apply (failure_surfaces_then_iteration_resumes
           [gitRepo "a" "/srv/a"] [gitRepo "b" "/srv/b"]
           (gitRepo "x" "/srv/x") [[1; 2]] [[3]] p
           (Fixture.background p false)
           {| Pool := p; SkipGitErrors := false |}
           (Fixture.Factory [("a", inr [inr 1; inr 2]); ("b", inr [inr 3])])
           (ErrHost "repository does not exist") i).
  - reflexivity.
  - repeat constructor; discriminate.
  - reflexivity.
  - reflexivity.
  - reflexivity.
  - reflexivity.
  - intros n. reflexivity.
  - constructor; [|constructor].
    eexists _, _. split; [reflexivity|]. split; [reflexivity|].
    eapply produces_cons; [reflexivity|].
    eapply produces_cons; [reflexivity|].
    eapply produces_nil. reflexivity.
  - left. split; reflexivity.
  - constructor; [|constructor].
    eexists _, _. split; [reflexivity|]. split; [reflexivity|].
    eapply produces_cons; [reflexivity|].
    eapply produces_nil. reflexivity.
  - reflexivity.
Defined.

Section AfterTheEnd.
Context `{Host} {Row I : Type} `{!RowRepoIter Row I}.
Implicit Types (i j : rowRepoIter (I := I)) (it : I).

Lemma GetPos_out_of_range (pos : Z) (p : RepositoryPool) :
  (Z.of_nat (size (repositories p)) ≤ pos)%Z → GetPos pos p = Err EOF.
Proof.
  intros Hpos. unfold GetPos.
  by destruct (Z.leb_spec (Z.of_nat (size (repositories p))) pos); [|lia].
Qed.

Lemma Next_past_the_end i (fuel : nat) :
  currRepoIter i = None →
  Done (ctx i) (polls i) = false →
  (Z.of_nat (size (repositories (pool (repositoryIter i))))
   ≤ pos (repositoryIter i))%Z →
  Next (Row := Row) (S fuel) i = Some (pulled_one i, Err EOF).
Proof.
  intros Hcur Hdone Hpos. simpl.
  rewrite (loop_body_pull_error i EOF); [done|done|done|].
  by apply GetPos_out_of_range.
Qed.

(** X16: once the cursor is past the last position the iterator, unless
    canceled, answers [io.EOF] to every further call: each call asks the
    cursor again, which moves one position further and calls nothing else;
    this holds for the [n] next calls as long as the position stays below
    2^31. *)
Theorem end_of_pool_is_repeated (n fuel : nat) :
  ∀ i,
    currRepoIter i = None →
    (∀ m, Done (ctx i) m = false) →
    (Z.of_nat (size (repositories (pool (repositoryIter i))))
     ≤ pos (repositoryIter i))%Z →
    (pos (repositoryIter i) + Z.of_nat n < 2 ^ 31)%Z →
    (Next_calls (Row := Row) n (S fuel) i).1 = replicate n (Err EOF)
    ∧ currRepoIter (Next_calls (Row := Row) n (S fuel) i).2 = None
    ∧ pos (repositoryIter (Next_calls (Row := Row) n (S fuel) i).2) =
        (pos (repositoryIter i) + Z.of_nat n)%Z
    ∧ closed (trace (Next_calls (Row := Row) n (S fuel) i).2) =
        closed (trace i).
Proof.
  induction n as [|n IH]; intros i Hcur Hdone Hpos Hbound.
  - simpl. split_and!; try done. lia.
  - cbn [Next_calls]. rewrite Next_past_the_end by done.
    destruct (IH (pulled_one i)) as (Hres & Hidle & Hp & Hcl).
    + done.
    + intros m. apply Hdone.
    + simpl. rewrite wrap32_succ by lia. lia.
    + simpl. rewrite wrap32_succ by lia. lia.
    + destruct (Next_calls n (S fuel) (pulled_one i)) as [rs i'].
      simpl in *. split_and!; [by rewrite Hres|done| |].
      * rewrite Hp, wrap32_succ by lia. lia.
      * rewrite Hcl, closed_app. simpl. by rewrite app_nil_r.
Qed.

(** X17: the position of the cursor is an [int32].  An idle iterator whose
    cursor has reached 2^31 - 1 answers [io.EOF] once more, the position
    wraps to -2^31, and the call after that panics in [GetPos], indexing
    [idOrder] at a negative position. *)
Theorem cursor_overflow_panics i (fuel : nat) :
  currRepoIter i = None →
  (∀ m, Done (ctx i) m = false) →
  pos (repositoryIter i) = (2 ^ 31 - 1)%Z →
  (Z.of_nat (size (repositories (pool (repositoryIter i)))) ≤ 2 ^ 31 - 1)%Z →
  (Next_calls (Row := Row) 2 (S fuel) i).1 = [Err EOF; Panic].
Proof.
  intros Hcur Hdone Hpos Hsize.
  cbn [Next_calls]. rewrite Next_past_the_end by (done || lia).
  assert (Hpanic : Next (Row := Row) (S fuel) (pulled_one i) =
            Some (set_repositoryIter (repositoryIter (pulled_one i))
                    (record (EvRepositoryNext (- 2 ^ 31)%Z)
                       (poll (pulled_one i))), Panic)).
  { simpl. unfold loop_body, RepositoryIter_Next. simpl.
    rewrite Hdone, Hcur, Hpos. simpl. unfold GetPos.
    change (wrap32 (2 ^ 31 - 1 + 1)) with (- 2 ^ 31)%Z.
    destruct (Z.leb_spec
                (Z.of_nat (size (repositories (pool (repositoryIter i)))))
                (- 2 ^ 31)); [lia|].
    done. }
  by rewrite Hpanic.
Qed.

End AfterTheEnd.

Lemma end_of_pool_is_repeated_witness :
  let H := Fixture.host [] [] in
  (Next_calls (Row := nat) 3 1 (idle_at 1 false [])).1 =
    [Err EOF; Err EOF; Err EOF].
Proof.
  intros H.
  destruct (end_of_pool_is_repeated (Row := nat) 3 0 (idle_at 1 false []))
    as [Hres _].
  - reflexivity.
  - intros m. reflexivity.
  - vm_compute. discriminate.
  - reflexivity.
  - exact Hres.
Defined.

Lemma cursor_overflow_panics_witness :
  let H := Fixture.host [] [] in
  (Next_calls (Row := nat) 2 1 (idle_at (2 ^ 31 - 1) false [])).1 =
    [Err EOF; Panic].
Proof.
  intros H.
  apply (cursor_overflow_panics (Row := nat) (idle_at (2 ^ 31 - 1) false []) 0).
  - reflexivity.
  - intros m. reflexivity.
  - reflexivity.
  - vm_compute. discriminate.
Defined.

Section FactoryAndClose.
Context `{Host} {Row I : Type} `{!RowRepoIter Row I}.
Implicit Types (i j : rowRepoIter (I := I)) (it : I).

(** X18: what [NewIterator] returns is stored as the active sub-iterator
    before its error is looked at.  If it returns no iterator and no error,
    [Next] panics calling [Next] on nil.  If it returns an error, the
    iteration ends ([continue] with fault tolerance, the error without) with
    the returned iterator, nil or not, as the active one: a non-nil iterator
    returned along with an error is used by the following calls, without the
    cursor being asked. *)
Theorem NewIterator_result_is_stored i (repo : Repository) (c : option I)
    (e : option error) (fuel : nat) :
  Done (ctx i) (polls i) = false →
  currRepoIter i = None →
  GetPos (pos (repositoryIter i)) (pool (repositoryIter i)) = Ok repo →
  NewIterator (iter i) repo = (c, e) →
  (c = None → e = None → ∃ i', Next (Row := Row) (S fuel) i = Some (i', Panic))
  ∧ (∀ err, e = Some err →
       ∃ i', loop_body (Row := Row) i =
               (i', if SkipGitErrors (session i) then Continue
                    else ReturnErr err)
         ∧ currRepoIter i' = c
         ∧ repositoryIter i' = repositoryIter (pulled_one i)
         ∧ closed (trace i') = closed (trace i)).
Proof.
  intros Hdone Hcur Hget Hnew. split.
  - intros -> ->. eexists. simpl.
    rewrite (loop_body_pull_new i repo None) by done.
    unfold next_row. simpl. done.
  - intros err ->. eexists.
    rewrite (loop_body_pull_new_error i repo c err) by done.
    split; [done|]. simpl. split_and!; [done|done|].
    rewrite !closed_app. simpl. by rewrite !app_nil_r.
Qed.

(** X19: [Close] calls [Close] on the active sub-iterator, if any, then on
    the factory, whose result it returns, whatever [SkipGitErrors]; it does
    not reset the active sub-iterator.  So a second [Close] closes the same
    sub-iterator again, and an iteration of [Next] after [Close] calls
    [Next] on the closed sub-iterator. *)
Theorem Close_keeps_sub_iterator i it :
  currRepoIter i = Some it →
  (Close (Row := Row) i).2 = sub_Close (Row := Row) (iter i)
  ∧ trace (Close (Row := Row) i).1 = trace i ++ [EvClose it; EvClose (iter i)]
  ∧ currRepoIter (Close (Row := Row) i).1 = Some it
  ∧ repositoryIter (Close (Row := Row) i).1 = repositoryIter i
  ∧ closed (trace (Close (Row := Row) (Close (Row := Row) i).1).1) =
      closed (trace i) ++ [it; iter i; it; iter i]
  ∧ (Done (ctx i) (polls i) = false →
     ∃ tl, trace (loop_body (Row := Row) (Close (Row := Row) i).1).1 =
             trace (Close (Row := Row) i).1 ++ EvNext it :: tl).
Proof.
  intros Hcur. unfold Close. rewrite Hcur. simpl. rewrite Hcur. simpl.
  split_and!; try done.
  - by rewrite <- app_assoc.
  - rewrite !closed_app. simpl. by rewrite <- !app_assoc.
  - intros Hdone. unfold loop_body. simpl. rewrite Hdone, Hcur.
    unfold next_row. simpl. rewrite Hcur.
    destruct (sub_Next it) as [it' [err|row]]; simpl.
    + destruct (is_EOF err); simpl.
      * eexists. by rewrite <- !app_assoc.
      * destruct (SkipGitErrors (session i)); simpl;
          eexists; by rewrite <- !app_assoc.
    + eexists. by rewrite <- !app_assoc.
Qed.

(** On an idle iterator [Close] only closes the factory and returns its
    result. *)
Lemma Close_idle i :
  currRepoIter i = None →
  Close (Row := Row) i =
    (record (EvClose (iter i)) i, sub_Close (Row := Row) (iter i)).
Proof. intros Hcur. unfold Close. by rewrite Hcur. Qed.

End FactoryAndClose.

Lemma NewIterator_result_is_stored_witness :
  let H := Fixture.host [] [] in
  let p := Fixture.pool_of [gitRepo "a" "/srv/a"] in
  let s := {| Pool := p; SkipGitErrors := true |} in
  let i : rowRepoIter (I := Careless.careless) :=
    {| currRepoIter := None; repositoryIter := RepoIter p;
       iter := Careless.Forgetful; session := s;
       ctx := Fixture.background p true; polls := 0; trace := [] |} in
  ∃ i', Next (Row := nat) 1 i = Some (i', Panic).
Proof.
  intros H p s i.
  destruct (NewIterator_result_is_stored (Row := nat) i
              (@NewRepository H "a" "/srv/a") None None 0)
    as [Hpanic _]; [reflexivity..|].
  apply Hpanic; reflexivity.
Defined.

Lemma Close_keeps_sub_iterator_witness :
  let H := Fixture.host [] [] in
  let i := Fixture.active true (λ _, false) [inr 1] in
  closed (trace (Close (Row := nat) (Close (Row := nat) i).1).1) =
    [Fixture.Cursor [inr 1]; Fixture.Factory [];
     Fixture.Cursor [inr 1]; Fixture.Factory []]
  ∧ currRepoIter (Close (Row := nat) i).1 = Some (Fixture.Cursor [inr 1]).
Proof.
  intros H i.
  destruct (Close_keeps_sub_iterator (Row := nat) i (Fixture.Cursor [inr 1]))
    as (_ & _ & Hcur & _ & Htwice & _); [reflexivity|].
  split; [exact Htwice|exact Hcur].
Defined.

(** * Further properties of registration sequences and logs *)

Lemma AddAll_Some_iff (rs : list repository) :
  ∀ p0,
    is_Some (AddAll rs p0)
    ↔ NoDup (r_ID <$> rs) ∧ ∀ r, r ∈ rs → repositories p0 !! r_ID r = None.
Proof.
  induction rs as [|r rs IH]; intros p0.
  - simpl. split; [|eauto]. intros _. split; [constructor|].
    intros r Hr. by apply elem_of_nil in Hr.
  - rewrite fmap_cons, NoDup_cons. cbn [AddAll]. unfold Add.
    destruct (repositories p0 !! r_ID r) eqn:Hid.
    + split; [by intros [? ?]|]. intros [_ Hfresh].
      specialize (Hfresh r (list_elem_of_here _ _)). congruence.
    + rewrite IH. simpl. split.
      * intros [Hnodup Hfresh]. split_and!; [|done|].
        -- intros (r' & Heq & Hin)%list_elem_of_fmap.
           specialize (Hfresh r' Hin). rewrite <- Heq in Hfresh.
           by rewrite lookup_insert_eq in Hfresh.
        -- intros r' [->|Hin]%elem_of_cons; [done|].
           specialize (Hfresh r' Hin).
           destruct (decide (r_ID r = r_ID r')) as [Heq|Hne].
           ++ rewrite Heq, lookup_insert_eq in Hfresh. done.
           ++ by rewrite lookup_insert_ne in Hfresh.
      * intros [[Hnotin Hnodup] Hfresh]. split; [done|].
        intros r' Hin. rewrite lookup_insert_ne.
        -- apply Hfresh. by right.
        -- intros Heq. apply Hnotin. apply list_elem_of_fmap. by exists r'.
Qed.

(** X20: starting from an empty pool, a sequence of calls of [Add]
    succeeds as a whole exactly when the ids of the backends are pairwise
    distinct; the pool then lists those ids in the order of the calls and
    binds each to its backend. *)
Theorem AddAll_succeeds_iff_distinct (rs : list repository) :
  (is_Some (AddAll rs NewRepositoryPool) ↔ NoDup (r_ID <$> rs))
  ∧ (∀ p, AddAll rs NewRepositoryPool = Some p →
       idOrder p = r_ID <$> rs
       ∧ size (repositories p) = length rs
       ∧ ∀ r, r ∈ rs → repositories p !! r_ID r = Some r).
Proof.
  split.
  - rewrite AddAll_Some_iff. split; [by intros [? _]|].
    intros Hnodup. split; [done|]. intros r _. apply lookup_empty.
  - intros p (Hord & Hsize & Hin & _)%AddAll_spec. simpl in *.
    rewrite map_size_empty in Hsize. done.
Qed.

Section AddDirLog.
Context `{Host}.

Lemma AddGitWithID_idOrder (id path : string) (p : RepositoryPool) :
  idOrder (AddGitWithID id path p).1 =
    idOrder p ++ match (AddGitWithID id path p).2 with
                 | inr _ => [id]
                 | inl _ => []
                 end.
Proof.
  unfold AddGitWithID. destruct (PlainOpen path); simpl;
    [by rewrite app_nil_r|].
  unfold Add. simpl. destruct (repositories p !! id); simpl; [|done].
  by rewrite app_nil_r.
Qed.

Lemma AddDir_fold_log (prefix : Z) (path : string) (dirs : list FileInfo) :
  ∀ p lg, ∃ lg',
    (fold_left (AddDir_entry prefix path) dirs (p, lg)).2 = lg ++ lg'
    ∧ length lg' = length (List.filter IsDir dirs)
    ∧ length (idOrder (fold_left (AddDir_entry prefix path) dirs (p, lg)).1) =
        length (idOrder p) + length (List.filter is_debug lg').
Proof.
  induction dirs as [|f dirs IH]; intros p lg.
  - exists []. simpl. rewrite app_nil_r. split_and!; [done|done|lia].
  - cbn [fold_left List.filter]. unfold AddDir_entry at 2 4.
    destruct (IsDir f) eqn:Hdir.
    + pose proof (AddGitWithID_idOrder
                    (IDFromPath prefix (filepath.Join path (Name f)))
                    (filepath.Join path (Name f)) p) as Hord.
      destruct (AddGitWithID _ _ p) as [p1 [err|x]]; simpl in Hord.
      * destruct (IH p1 (lg ++ [Entry ErrorLevel
                   [("id", FString (IDFromPath prefix
                                      (filepath.Join path (Name f))));
                    ("path", FString (filepath.Join path (Name f)));
                    ("error", FError err)]
                   "repository could not be added"]))
          as (lg' & Hlog & Hlen & Hids).
        eexists (_ :: lg'). rewrite Hlog, <- app_assoc. simpl.
        split_and!; [done|by rewrite Hlen|].
        rewrite Hids, Hord, app_nil_r. done.
      * destruct (IH p1 (lg ++ [Entry DebugLevel
                   [("path", FString (filepath.Join path (Name f)))]
                   "repository added"]))
          as (lg' & Hlog & Hlen & Hids).
        eexists (_ :: lg'). rewrite Hlog, <- app_assoc. simpl.
        split_and!; [done|by rewrite Hlen|].
        rewrite Hids, Hord, length_app. simpl. lia.
    + apply IH.
Qed.

(** X21: the log of [AddDir] accounts for what it did.  When the directory
    is listed, it logs one record per listed directory and none for the
    other entries, and the records at debug level ("repository added") are
    as many as the ids it has added to the pool. *)
Theorem AddDir_log_accounts (prefix : Z) (path : string)
    (dirs : list FileInfo) (p : RepositoryPool) :
  ReadDir path = inr dirs →
  length (AddDir prefix path p).1.2 = length (List.filter IsDir dirs)
  ∧ length (idOrder (AddDir prefix path p).1.1) =
      length (idOrder p)
      + length (List.filter is_debug (AddDir prefix path p).1.2).
Proof.
  intros Hread. unfold AddDir. rewrite Hread.
  destruct (AddDir_fold_log prefix path dirs p []) as (lg' & Hlog & Hlen & Hids).
  destruct (fold_left _ dirs (p, [])) as [p' lg]. simpl in *. by subst lg.
Qed.

End AddDirLog.

Lemma AddDir_log_accounts_witness :
  let H := Fixture.host ["repos/bad"]
    [("repos", [Fixture.dir "bad"; Fixture.dir "good"; Fixture.file "README"])] in
  length (AddDir 0 "repos" NewRepositoryPool).1.2 = 2
  ∧ length (idOrder (AddDir 0 "repos" NewRepositoryPool).1.1) =
      0 + length (List.filter is_debug (AddDir 0 "repos" NewRepositoryPool).1.2).
Proof.
  intros H.
  apply (AddDir_log_accounts 0 "repos"
           [Fixture.dir "bad"; Fixture.dir "good"; Fixture.file "README"]
           NewRepositoryPool).
  reflexivity.
Defined.

(** * Errors of the active sub-iterator *)

Section ActiveSubIteratorErrors.
Context `{Host} {Row I : Type} `{!RowRepoIter Row I}.
Implicit Types (i j : rowRepoIter (I := I)) (it : I).

(** An iteration that creates a sub-iterator goes on to call its [Next]. *)
Lemma loop_body_created i (repo : Repository) it :
  Done (ctx i) (polls i) = false →
  currRepoIter i = None →
  GetPos (pos (repositoryIter i)) (pool (repositoryIter i)) = Ok repo →
  NewIterator (iter i) repo = (Some it, None) →
  loop_body (Row := Row) i =
    next_row
      (set_currRepoIter (Some it)
         (record (EvNewIterator (ID repo)) (pulled_one i))).
Proof. intros. by apply loop_body_pull_new. Qed.

(** C2, amended: without fault tolerance, when [Next] of the active
    sub-iterator returns an error other than [io.EOF], [Next] returns that
    error in the same iteration; it does not close the sub-iterator, which
    stays the active one.  This holds when the sub-iterator was active
    before the call (the cursor does not move, the only call made is that
    [Next]) and when the iteration has just created it (the cursor has been
    asked once, [NewIterator] and that [Next] are the only other calls).
    The sub-iterator is closed when the composite iterator is closed. *)
Theorem error_surfaces_without_close i it it' (err : error) (fuel : nat) :
  SkipGitErrors (session i) = false →
  Done (ctx i) (polls i) = false →
  sub_Next it = (it', inl err) →
  is_EOF err = false →
  (currRepoIter i = Some it →
     ∃ i', Next (Row := Row) (S fuel) i = Some (i', Err err)
       ∧ currRepoIter i' = Some it'
       ∧ repositoryIter i' = repositoryIter i
       ∧ trace i' = trace i ++ [EvNext it]
       ∧ trace (Close (Row := Row) i').1 =
           trace i' ++ [EvClose it'; EvClose (iter i)])
  ∧ (∀ repo,
       currRepoIter i = None →
       GetPos (pos (repositoryIter i)) (pool (repositoryIter i)) = Ok repo →
       NewIterator (iter i) repo = (Some it, None) →
       ∃ i', Next (Row := Row) (S fuel) i = Some (i', Err err)
         ∧ currRepoIter i' = Some it'
         ∧ repositoryIter i' =
             {| pos := wrap32 (pos (repositoryIter i) + 1);
                pool := pool (repositoryIter i) |}
         ∧ trace i' =
             trace i ++ [EvRepositoryNext (pos (repositoryIter i));
                         EvNewIterator (ID repo); EvNext it]
         ∧ trace (Close (Row := Row) i').1 =
             trace i' ++ [EvClose it'; EvClose (iter i)]).
Proof.
  intros Hskip Hdone Hnext Herr. split.
  - intros Hcur. eexists. split.
    + simpl. rewrite (loop_body_active _ it) by done.
      rewrite (next_row_error _ it it' err) by done. simpl. by rewrite Hskip.
    + unfold Close. simpl. by rewrite <- app_assoc.
  - intros repo Hcur Hget Hnew. eexists. split.
    + simpl. rewrite (loop_body_created i repo it) by done.
      rewrite (next_row_error _ it it' err) by done. simpl. by rewrite Hskip.
    + unfold Close. simpl. split_and!; [done|done| |].
      * by rewrite <- !app_assoc.
      * by rewrite <- !app_assoc.
Qed.


End ActiveSubIteratorErrors.

Lemma error_surfaces_without_close_witness :
  let H := Fixture.host [] [] in
  let script := [inl (ErrHost "disk"); inr 7] in
  (∃ i', Next 1 (Fixture.active false (λ _, false) script) =
           Some (i', Err (ErrHost "disk"))
     ∧ currRepoIter i' = Some (Fixture.Cursor [inr 7])
     ∧ trace i' = [EvNext (Fixture.Cursor script)])
  ∧ (∃ i', Next 1 (idle_at 0 false [("a", inr script)]) =
             Some (i', Err (ErrHost "disk"))
       ∧ currRepoIter i' = Some (Fixture.Cursor [inr 7])
       ∧ trace i' =
           [EvRepositoryNext 0; EvNewIterator "a";
            EvNext (Fixture.Cursor script)]).
Proof.
  intros H script. split.
  - destruct (error_surfaces_without_close
                (Fixture.active false (λ _, false) script)
                (Fixture.Cursor script) (Fixture.Cursor [inr 7])
                (ErrHost "disk") 0) as [Hactive _]; [reflexivity..|].
    destruct Hactive as (i' & Hnext & Hcur & _ & Htrace & _); [reflexivity|].
    exists i'. split; [exact Hnext|]. split; [exact Hcur|exact Htrace].
  - destruct (error_surfaces_without_close
                (idle_at 0 false [("a", inr script)])
                (Fixture.Cursor script) (Fixture.Cursor [inr 7])
                (ErrHost "disk") 0) as [_ Hcreated]; [reflexivity..|].
    destruct (Hcreated (@NewRepository H "a" "/srv/a"))
      as (i' & Hnext & Hcur & _ & Htrace & _); [reflexivity..|].
    exists i'. split; [exact Hnext|]. split; [exact Hcur|exact Htrace].
Defined.

(** C2 as stated fails.  The iterator built for the pool ["a"], without
    fault tolerance, returns the error of the sub-iterator of "a", whether
    that error comes after a row or from the first call on the sub-iterator
    just created: no [Close] was called on any sub-iterator when the error is
    returned, and the sub-iterator is still the active one. *)
Lemma error_surfaces_before_any_close :
  let H := Fixture.host [] [] in
  let p := Fixture.pool_of [gitRepo "a" "/srv/a"] in
  (let i := Fixture.driver p false
              [("a", inr [inr 1; inl (ErrHost "disk"); inr 7])] in
   ∃ i', consume 5 5 i = ([1], Some (Err (ErrHost "disk")), i')
     ∧ trace i' =
         [EvRepositoryNext 0; EvNewIterator "a";
          EvNext (Fixture.Cursor [inr 1; inl (ErrHost "disk"); inr 7]);
          EvNext (Fixture.Cursor [inl (ErrHost "disk"); inr 7])]
     ∧ closed (trace i') = []
     ∧ currRepoIter i' = Some (Fixture.Cursor [inr 7]))
  ∧ (let i := Fixture.driver p false
                [("a", inr [inl (ErrHost "disk"); inr 7])] in
     ∃ i', consume 5 5 i = ([], Some (Err (ErrHost "disk")), i')
       ∧ trace i' =
           [EvRepositoryNext 0; EvNewIterator "a";
            EvNext (Fixture.Cursor [inl (ErrHost "disk"); inr 7])]
       ∧ closed (trace i') = []
       ∧ currRepoIter i' = Some (Fixture.Cursor [inr 7])).
Proof.
  intros H p. split.
  - eexists. split; [reflexivity|]. split; [reflexivity|].
    split; reflexivity.
  - eexists. split; [reflexivity|]. split; [reflexivity|].
    split; reflexivity.
Qed.


(** * Bulk scans: what is registered and what is skipped *)

Section BulkScans.
Context `{Host}.



End BulkScans.

